(** * Baiterek tourist assistant: answer normalisation and landmark resolution

    A shallow embedding of the two request handlers of the repository,

      - [functions/ai-guide/src/lambda_function.py]      (module [AiGuide])
      - [functions/vision-recognize/attraction-scanner.py] (module [Scanner])

    together with the part of the Python run time they rely on
    ([str] and [bytes] methods, the [re] module, binary64 floats), and the
    properties of the specification that were checked against them.

    Conventions.
      - A Python [str] is a list of Unicode code points ([list N]);
        a Python [bytes] is a list of octets ([list ascii]).
      - A [dict] is a [gmap]; a [set] is iterated in an order that Python
        does not fix, which is made an explicit argument where it matters.
      - A call that may raise returns a [result]; the exception carries the
        text that [str(e)] would show.
      - A float is a binary64 value of [SpecFloat], rounded to nearest even.
      - Wall-clock time, request ids and the JSON serialisation of the
        response body are not part of the model: a response is its status
        code and its payload. *)

From Stdlib Require Import ZArith NArith Ascii String SpecFloat.
From stdpp Require Import base option list gmap strings.

Open Scope N_scope.
Open Scope list_scope.

(** ** Python values shared by both handlers *)

Abbreviation str := (list N).
Abbreviation bytes := (list ascii).

(** Code point of an ASCII character, and the [str] of an ASCII literal. *)
Definition cp (a : ascii) : N := N_of_ascii a.
Definition u (s : string) : str := cp <$> list_ascii_of_string s.

(** Octets of a literal. *)
Definition b (s : string) : bytes := list_ascii_of_string s.

(** Outcome of a call that may raise. *)
Inductive result (A : Type) : Type :=
| Ok (a : A)
| Raise (msg : str).
Arguments Ok {A} a.
Arguments Raise {A} msg.

Module Py.

(** *** Sequences: [find], [in], [startswith], [replace], [split] *)

Section Seq.
Context {A : Type} `{EqDecision A}.

Fixpoint startswith (s p : list A) : bool :=
  match p, s with
  | [], _ => true
  | x :: p', y :: s' => bool_decide (x = y) && startswith s' p'
  | _ :: _, [] => false
  end.

(** [s.find(sub)]: index of the first occurrence, [None] for -1. *)
Fixpoint find (sub s : list A) : option nat :=
  if startswith s sub then Some O
  else match s with
       | [] => None
       | _ :: s' => S <$> find sub s'
       end.

(** [sub in s] *)
Definition contains (sub s : list A) : bool :=
  match find sub s with Some _ => true | None => false end.

(** [s.replace(old, new)] for a non-empty [old]: occurrences are
    replaced from the left and do not overlap.  [skip] counts the
    elements of the occurrence being replaced that are still ahead. *)
Fixpoint replace_go (old new s : list A) (skip : nat) : list A :=
  match s with
  | [] => []
  | c :: s' =>
      match skip with
      | S k => replace_go old new s' k
      | O => if startswith s old
             then new ++ replace_go old new s' (pred (length old))
             else c :: replace_go old new s' O
      end
  end.
Definition replace (old new s : list A) : list A := replace_go old new s O.

(** [s.split(sep)] for a non-empty [sep].  [cur] holds the current
    piece in reverse. *)
Fixpoint split_go (sep s cur : list A) (skip : nat) : list (list A) :=
  match s with
  | [] => [rev cur]
  | c :: s' =>
      match skip with
      | S k => split_go sep s' cur k
      | O => if startswith s sep
             then rev cur :: split_go sep s' [] (pred (length sep))
             else split_go sep s' (c :: cur) O
      end
  end.
Definition split (sep s : list A) : list (list A) := split_go sep s [] O.

Fixpoint lstrip_by (p : A → bool) (s : list A) : list A :=
  match s with
  | c :: s' => if p c then lstrip_by p s' else s
  | [] => []
  end.
Definition rstrip_by (p : A → bool) (s : list A) : list A :=
  rev (lstrip_by p (rev s)).
Definition strip_by (p : A → bool) (s : list A) : list A :=
  rstrip_by p (lstrip_by p s).
End Seq.

(** *** [str] *)

Definition in_range (lo hi c : N) : bool := (lo <=? c) && (c <=? hi).

(** [str.isspace] on one code point; the same set is [\s] of [re] on a
    [str] pattern. *)
Definition isspace (c : N) : bool :=
  in_range 0x09 0x0D c || in_range 0x1C 0x20 c || (c =? 0x85) || (c =? 0xA0)
  || (c =? 0x1680) || in_range 0x2000 0x200A c || (c =? 0x2028)
  || (c =? 0x2029) || (c =? 0x202F) || (c =? 0x205F) || (c =? 0x3000).

(** [str.strip()] *)
Definition strip (s : str) : str := strip_by isspace s.

(** [str.lower()] on one code point.  The table covers Basic Latin,
    Latin-1, the Cyrillic block and the three code points outside them
    whose lower case is, or starts with, a Basic Latin letter (U+0130,
    U+212A) or a Latin-1 letter (U+212B).  U+0130 is the one code point
    that becomes two.  Cased letters of other scripts are outside the
    modelled domain and are left as they are. *)
Definition even_in (lo hi c : N) : bool := in_range lo hi c && N.even (c - lo).
Definition lower_cp (c : N) : list N :=
  if in_range 0x41 0x5A c then [c + 32]
  else if in_range 0xC0 0xD6 c || in_range 0xD8 0xDE c then [c + 32]
  else if c =? 0x130 then [0x69; 0x307]
  else if c =? 0x212A then [0x6B]
  else if c =? 0x212B then [0xE5]
  else if in_range 0x400 0x40F c then [c + 80]
  else if in_range 0x410 0x42F c then [c + 32]
  else if even_in 0x460 0x480 c || even_in 0x48A 0x4BE c
          || even_in 0x4C1 0x4CD c || even_in 0x4D0 0x52E c then [c + 1]
  else if c =? 0x4C0 then [0x4CF]
  else [c].
Definition lower (s : str) : str := s ≫= lower_cp.

(** *** [bytes] *)

(** The octets [bytes.strip()] removes: space, \t, \n, \v, \f, \r. *)
Definition isspace_byte (c : ascii) : bool :=
  let n := N_of_ascii c in in_range 0x09 0x0D n || (n =? 0x20).

Definition bstrip (s : bytes) : bytes := strip_by isspace_byte s.

Definition CR : ascii := ascii_of_N 13.
Definition LF : ascii := ascii_of_N 10.
Definition CRLF : bytes := [CR; LF].

(** [bytes.rstrip(b"\r\n")]: trailing octets that are CR or LF. *)
Definition rstrip_crlf (s : bytes) : bytes :=
  rstrip_by (λ c, bool_decide (c = CR) || bool_decide (c = LF)) s.

(** [str.encode()] (UTF-8). *)
Definition byte_of (n : N) : ascii := ascii_of_N n.
Definition encode_cp (c : N) : bytes :=
  if c <? 0x80 then [byte_of c]
  else if c <? 0x800 then [byte_of (0xC0 + c / 64); byte_of (0x80 + c mod 64)]
  else if c <? 0x10000 then
    [byte_of (0xE0 + c / 4096); byte_of (0x80 + (c / 64) mod 64);
     byte_of (0x80 + c mod 64)]
  else
    [byte_of (0xF0 + c / 262144); byte_of (0x80 + (c / 4096) mod 64);
     byte_of (0x80 + (c / 64) mod 64); byte_of (0x80 + c mod 64)].
Definition encode (s : str) : bytes := s ≫= encode_cp.

(** [bytes.decode("utf-8", "ignore")].  A well-formed sequence yields its
    code point; at an ill-formed one the decoder drops the longest prefix
    that could still have started a sequence (at least one octet) and
    goes on.  [skip] counts octets already consumed. *)
Definition cont (c : ascii) : bool := in_range 0x80 0xBF (N_of_ascii c).
Definition low6 (c : ascii) : N := N_of_ascii c mod 64.

(** Range of the second octet after the lead octet [n]. *)
Definition second_ok (n : N) (c : ascii) : bool :=
  let m := N_of_ascii c in
  if n =? 0xE0 then in_range 0xA0 0xBF m
  else if n =? 0xED then in_range 0x80 0x9F m
  else if n =? 0xF0 then in_range 0x90 0xBF m
  else if n =? 0xF4 then in_range 0x80 0x8F m
  else in_range 0x80 0xBF m.

(** Code point (if any) decoded at the head of [s], with the number of
    octets consumed. *)
Definition decode_head (s : bytes) : option N * nat :=
  match s with
  | [] => (None, O)
  | c0 :: s1 =>
      let n := N_of_ascii c0 in
      if n <? 0x80 then (Some n, 1%nat)
      else if in_range 0xC2 0xDF n then
        match s1 with
        | c1 :: _ => if cont c1 then (Some ((n mod 32) * 64 + low6 c1), 2%nat)
                     else (None, 1%nat)
        | [] => (None, 1%nat)
        end
      else if in_range 0xE0 0xEF n then
        match s1 with
        | c1 :: s2 =>
            if second_ok n c1 then
              match s2 with
              | c2 :: _ =>
                  if cont c2
                  then (Some ((n mod 16) * 4096 + low6 c1 * 64 + low6 c2), 3%nat)
                  else (None, 2%nat)
              | [] => (None, 2%nat)
              end
            else (None, 1%nat)
        | [] => (None, 1%nat)
        end
      else if in_range 0xF0 0xF4 n then
        match s1 with
        | c1 :: s2 =>
            if second_ok n c1 then
              match s2 with
              | c2 :: s3 =>
                  if cont c2 then
                    match s3 with
                    | c3 :: _ =>
                        if cont c3
                        then (Some ((n mod 8) * 262144 + low6 c1 * 4096
                                    + low6 c2 * 64 + low6 c3), 4%nat)
                        else (None, 3%nat)
                    | [] => (None, 3%nat)
                    end
                  else (None, 2%nat)
              | [] => (None, 2%nat)
              end
            else (None, 1%nat)
        | [] => (None, 1%nat)
        end
      else (None, 1%nat)
  end.

Fixpoint decode_go (s : bytes) (skip : nat) : str :=
  match s with
  | [] => []
  | _ :: s' =>
      match skip with
      | S k => decode_go s' k
      | O => match decode_head s with
             | (Some c, n) => c :: decode_go s' (pred n)
             | (None, n) => decode_go s' (pred n)
             end
      end
  end.
Definition decode_ignore (s : bytes) : str := decode_go s O.

End Py.

(** A [str] literal that is not ASCII, written in UTF-8. *)
Definition u8 (s : string) : str := Py.decode_ignore (b s).

(** ** The fragment of [re] the handlers use

    A backtracking matcher with Python's priorities: a greedy repetition
    tries the longest run first, a lazy one the shortest, an alternation its
    branches from the left, and the first way that lets the rest of the
    pattern succeed wins.  Every repetition in the patterns of this
    repository ranges over a single character class, which is what [Rep]
    provides. *)

Module Re.

Inductive regex : Type :=
| Chr (p : N → bool)                     (* one character of a class *)
| Rep (greedy : bool) (lo : nat) (hi : option nat) (p : N → bool)
                                          (* [p]{lo,hi}, hi = None: no bound *)
| Cat (r1 r2 : regex)
| Alt (r1 r2 : regex)
| Eps
| Grp (r : regex)                         (* capturing group *)
| Bol (multiline : bool)                  (* ^ *)
| Eol (multiline : bool).                 (* $ *)

(** State of a match attempt: the text before the current position (in
    reverse), the text after it, and the groups closed so far. *)
Record mstate := MState {
  before : str;
  after : str;
  groups : list str
}.

Definition NL : N := 10.

Definition at_bol (multiline : bool) (pre : str) : bool :=
  match pre with
  | [] => true
  | c :: _ => multiline && (c =? NL)
  end.

Definition at_eol (multiline : bool) (rest : str) : bool :=
  match rest with
  | [] => true
  | c :: rest' => (c =? NL) && (multiline || bool_decide (rest' = []))
  end.

Definition may_take (hi : option nat) : bool :=
  match hi with Some O => false | _ => true end.

Section Run.
Context {A : Type}.

Fixpoint rep (greedy : bool) (p : N → bool) (lo : nat) (hi : option nat)
    (k : str → str → option A) (pre rest : str) {struct rest} : option A :=
  if greedy then
    match
      match rest with
      | c :: rest' =>
          if p c && may_take hi
          then rep greedy p (pred lo) (pred <$> hi) k (c :: pre) rest'
          else None
      | [] => None
      end
    with
    | Some x => Some x
    | None => match lo with O => k pre rest | S _ => None end
    end
  else
    match match lo with O => k pre rest | S _ => None end with
    | Some x => Some x
    | None =>
        match rest with
        | c :: rest' =>
            if p c && may_take hi
            then rep greedy p (pred lo) (pred <$> hi) k (c :: pre) rest'
            else None
        | [] => None
        end
    end.

Fixpoint run (r : regex) (k : mstate → option A) (st : mstate) : option A :=
  match r with
  | Chr p =>
      match after st with
      | c :: rest => if p c then k (MState (c :: before st) rest (groups st))
                     else None
      | [] => None
      end
  | Rep g lo hi p =>
      rep g p lo hi (λ pre rest, k (MState pre rest (groups st)))
          (before st) (after st)
  | Cat r1 r2 => run r1 (run r2 k) st
  | Alt r1 r2 =>
      match run r1 k st with
      | Some x => Some x
      | None => run r2 k st
      end
  | Eps => k st
  | Grp r =>
      run r (λ st',
             let n := (length (before st') - length (before st))%nat in
             k (MState (before st') (after st')
                       (groups st' ++ [rev (take n (before st'))]))) st
  | Bol ml => if at_bol ml (before st) then k st else None
  | Eol ml => if at_eol ml (after st) then k st else None
  end.
End Run.

(** A match of [r] that starts right after [pre] (reversed) in
    [rev pre ++ s]: the state at its end. *)
Definition match_at (r : regex) (pre s : str) : option mstate :=
  run r Some (MState pre s []).

(** Length of that match. *)
Definition match_len (r : regex) (pre s : str) : option nat :=
  (λ st, (length (before st) - length pre)%nat) <$> match_at r pre s.

(** [re.search]: the leftmost position at which a match starts.  Returns
    the text before the match (reversed) and the final state. *)
Fixpoint search_go (r : regex) (pre s : str) : option (str * mstate) :=
  match match_at r pre s with
  | Some st => Some (pre, st)
  | None =>
      match s with
      | [] => None
      | c :: s' => search_go r (c :: pre) s'
      end
  end.
Definition search (r : regex) (s : str) : option (str * mstate) :=
  search_go r [] s.

(** [m.group(i)], i >= 1. *)
Definition group (i : nat) (m : str * mstate) : str :=
  default [] (groups (snd m) !! pred i).

(** [re.sub(r, repl, s)] with a literal replacement.  None of the
    patterns substituted in this repository matches the empty string (each
    needs at least one character), so a match of length 0 is treated as no
    match.  [skip] counts the characters of the current match that are
    still ahead. *)
Fixpoint sub_go (r : regex) (repl pre s : str) (skip : nat) : str :=
  match s with
  | [] => []
  | c :: s' =>
      match skip with
      | S k => sub_go r repl (c :: pre) s' k
      | O =>
          match match_len r pre s with
          | Some (S n) => repl ++ sub_go r repl (c :: pre) s' n
          | _ => c :: sub_go r repl (c :: pre) s' O
          end
      end
  end.
Definition sub (r : regex) (repl s : str) : str := sub_go r repl [] s O.

(** *** Pattern syntax *)

Definition is_ch (c : N) : N → bool := N.eqb c.
Definition isnt (cs : str) : N → bool := λ c, negb (bool_decide (c ∈ cs)).
Definition oneof (cs : str) : N → bool := λ c, bool_decide (c ∈ cs).
Definition any : N → bool := λ _, true.          (* . under DOTALL *)

(** A literal character under IGNORECASE.  Besides the two cases of an
    ASCII letter, [re] accepts U+0130 and U+0131 for i, U+017F for s and
    U+212A for k. *)
Definition is_ch_ci (c : N) : N → bool := λ x,
  let fold y := if Py.in_range 0x41 0x5A y then y + 32 else y in
  let l := fold c in
  (fold x =? l)
  || ((l =? 0x69) && ((x =? 0x130) || (x =? 0x131)))
  || ((l =? 0x73) && (x =? 0x17F))
  || ((l =? 0x6B) && (x =? 0x212A)).

Definition seq (rs : list regex) : regex := foldr Cat Eps rs.
Definition alt (r : regex) (rs : list regex) : regex := foldr (λ x y, Alt y x) r (rev rs).
Definition lit (s : string) : regex := seq (Chr ∘ is_ch <$> u s).
Definition lit_ci (s : string) : regex := seq (Chr ∘ is_ch_ci <$> u s).
Definition opt (p : N → bool) : regex := Rep true 0 (Some 1%nat) p.
Definition star (p : N → bool) : regex := Rep true 0 None p.
Definition plus (p : N → bool) : regex := Rep true 1 None p.
Definition star_lazy (p : N → bool) : regex := Rep false 0 None p.
Definition ch (s : string) : N := default 0 (head (u s)).

End Re.

(** ** Binary64 floats *)

Module Float.

Abbreviation float := spec_float.

Definition prec : Z := 53.
Definition emax : Z := 1024.

Definition add : float → float → float := SFadd prec emax.
Definition sub : float → float → float := SFsub prec emax.
Definition ltb : float → float → bool := SFltb.
Definition leb : float → float → bool := SFleb.

Definition zero : float := S754_zero false.

(** The binary64 value nearest to [m / 10^k], ties to even: the value of
    a decimal literal with digits [m] and [k] digits after the point, and
    of [float()] on a string of that shape. *)
Definition decimal (m : N) (k : nat) : float :=
  match m with
  | N0 => zero
  | Npos p => SFdiv prec emax (S754_finite false p 0)
                    (S754_finite false (Z.to_pos (10 ^ Z.of_nat k)) 0)
  end.


(** [max(a, b)] and [min(a, b)] of Python on two floats: the second
    argument replaces the first only when it is strictly greater
    (smaller). *)
Definition max (a b : float) : float := if ltb a b then b else a.
Definition min (a b : float) : float := if ltb b a then b else a.

(** [float(tok)] for a token made of digits and dots, the only strings the
    scanner passes to it: digits with at most one point and at least one
    digit are accepted.  Returns the digits read as a number and how many
    of them follow the point. *)
Definition digit (c : N) : option N :=
  if Py.in_range 48 57 c then Some (c - 48) else None.

Fixpoint digits_go (s : str) (acc : N) : option N :=
  match s with
  | [] => Some acc
  | c :: s' => d ← digit c; digits_go s' (10 * acc + d)
  end.

Definition parse_decimal (tok : str) : option (N * nat) :=
  match Py.find [46] tok with
  | None => match tok with
            | [] => None
            | _ => m ← digits_go tok 0; Some (m, O)
            end
  | Some i =>
      let ip := take i tok in
      let fp := drop (S i) tok in
      match ip ++ fp with
      | [] => None
      | ds => m ← digits_go ds 0; Some (m, length fp)
      end
  end.

Definition of_token (tok : str) : result float :=
  match parse_decimal tok with
  | Some (m, k) => Ok (decimal m k)
  | None => Raise (u "could not convert string to float: '" ++ tok ++ u "'")
  end.

(** [round(x, nd)] for a small non-negative [nd]: the exact value of [x]
    is rounded to [nd] decimals, ties to even, and the decimal obtained is
    converted back to binary64. *)
Definition round_half_even (num den : Z) : Z :=
  let q := (num / den)%Z in
  let r := (num mod den)%Z in
  match (2 * r ?= den)%Z with
  | Lt => q
  | Gt => (q + 1)%Z
  | Eq => if Z.even q then q else (q + 1)%Z
  end.

Definition round (x : float) (nd : nat) : float :=
  match x with
  | S754_finite s m e =>
      let num := (Z.pos m * 10 ^ Z.of_nat nd)%Z in
      let n := if (0 <=? e)%Z then (num * 2 ^ e)%Z
               else round_half_even num (2 ^ (- e)) in
      match decimal (Z.to_N n) nd with
      | S754_finite _ m' e' => S754_finite s m' e'
      | S754_zero _ => S754_zero s
      | S754_infinity _ => S754_infinity s
      | S754_nan => S754_nan
      end
  | _ => x
  end.

End Float.

(** ** [functions/ai-guide/src/lambda_function.py] *)

Module AiGuide.
Import Re.

(** *** Cleanup *)

(** [(?:</?SYS>|</?INST>|\[/?SYS]|\[/INST])], IGNORECASE *)
Definition NOISE_RE : regex :=
  Alt (seq [lit "<"; opt (is_ch (ch "/")); lit_ci "SYS>"])
 (Alt (seq [lit "<"; opt (is_ch (ch "/")); lit_ci "INST>"])
 (Alt (seq [lit "["; opt (is_ch (ch "/")); lit_ci "SYS]"])
      (lit_ci "[/INST]"))).

(** [<out>(.*?)</out>], DOTALL | IGNORECASE *)
Definition OUT_TAG_RE : regex :=
  seq [lit_ci "<out>"; Grp (star_lazy any); lit_ci "</out>"].

(** [</?[^>]+>] *)
Definition HTML_TAG_RE : regex :=
  seq [lit "<"; opt (is_ch (ch "/")); plus (isnt (u ">")); lit ">"].

(** [(?:^|\n)\s*(?:</out>|\*{0,2}\s*output\s*:|\*{0,2}\s*note\s*:|output\s*:|note\s*:).*$],
    IGNORECASE | DOTALL *)
Definition DANGEROUS_SECTIONS_RE : regex :=
  let stars := Rep true 0 (Some 2%nat) (is_ch (ch "*")) in
  let ws := star Py.isspace in
  seq [Alt (Bol false) (Chr (is_ch NL)); ws;
       Alt (lit_ci "</out>")
      (Alt (seq [stars; ws; lit_ci "output"; ws; lit ":"])
      (Alt (seq [stars; ws; lit_ci "note"; ws; lit ":"])
      (Alt (seq [lit_ci "output"; ws; lit ":"])
           (seq [lit_ci "note"; ws; lit ":"]))));
       star any; Eol false].

(** [^[ \t]*#{1,6}\s*], MULTILINE *)
Definition HEADING_RE : regex :=
  seq [Bol true; star (oneof [cp " "; 9]);
       Rep true 1 (Some 6%nat) (is_ch (ch "#")); star Py.isspace].

(** [\n{3,}] *)
Definition BLANK_LINES_RE : regex := Rep true 3 None (is_ch NL).

Definition _clean_noise (text : str) : str :=
  match text with
  | [] => text
  | _ =>
      let t := sub NOISE_RE [] text in
      let t := sub HTML_TAG_RE [] t in
      Py.strip t
  end.

Definition _extract_out (text : str) : str :=
  match text with
  | [] => []
  | _ =>
      match search OUT_TAG_RE text with
      | Some m => Py.strip (group 1 m)
      | None =>
          match Py.find (u "</out>") (Py.lower text) with
          | Some end_ => Py.strip (take end_ text)
          | None => Py.strip text
          end
      end
  end.

Definition _strip_after_markers (text : str) : str :=
  Py.strip (sub DANGEROUS_SECTIONS_RE [] text).

Definition _strip_markdown_symbols (text : str) : str :=
  let t := Py.replace (u "|") (u " ") text in
  let t := Py.replace (u "*") [] (Py.replace (u "**") [] t) in
  let t := Py.replace (u "`") [] t in
  let t := sub HEADING_RE [] t in
  t.

Definition _final_sanitize (text : str) : str :=
  let t := _extract_out text in
  let t := _strip_after_markers t in
  let t := _clean_noise t in
  let t := _strip_markdown_symbols t in
  let t := Py.strip (sub BLANK_LINES_RE [NL; NL] t) in
  t.

(** *** Citations *)

(** The retrieval response is a JSON object; every [.get(key, {})] of the
    source reads an optional field.  [None] is an absent key. *)
Record s3_location := { uri : option str }.
Record web_location := { url : option str }.
Record location := {
  s3Location : option s3_location;
  webLocation : option web_location
}.
Record content := { text : option str }.
Record reference := {
  ref_location : option location;
  ref_content : option content
}.
Record part_citation := { part_retrievedReferences : option (list reference) }.
Record generated_part := { part_citations : option (list part_citation) }.
Record citation := {
  generatedResponsePart : option generated_part;
  retrievedReferences : option (list reference)
}.
Record output := { output_text : option str }.
Record rag_response := {
  rag_output : option output;
  citations : option (list citation);
  top_retrievedReferences : option (list reference)
}.

Record cite := { cite_uri : str; snippet : str }.

(** [x or y] on strings that may be absent: the first that is present
    and not empty. *)
Definition truthy (s : str) : bool :=
  match s with [] => false | _ => true end.
Definition or_else (x : option str) (y : str) : str :=
  match x with
  | Some s => if truthy s then s else y
  | None => y
  end.

(** [d.get(key, {}).get(field)] on an object [d.get(key)] that may be
    absent. *)
Definition get {A B : Type} (field : A → option B) (o : option A) : option B :=
  match o with
  | Some d => field d
  | None => None
  end.

Definition ref_uri (ref : reference) : str :=
  or_else (get uri (get s3Location (ref_location ref)))
          (or_else (get url (get webLocation (ref_location ref))) []).

Definition ref_text (ref : reference) : str :=
  default [] (get text (ref_content ref)).

(** The body shared by the three loops over references:
    [if uri: cites.append({"uri": uri, "snippet": frag[:600]})]. *)
Definition append_ref (cites : list cite) (ref : reference) : list cite :=
  let uri := ref_uri ref in
  let frag := ref_text ref in
  if truthy uri
  then cites ++ [{| cite_uri := uri; snippet := take 600 frag |}]
  else cites.

Definition _extract_citations (rag : rag_response) : list cite :=
  let cites := [] in
  let cites :=
    foldl (λ cites c,
      let cites :=
        foldl (λ cites prov,
                 foldl append_ref cites
                       (default [] (part_retrievedReferences prov)))
              cites
              (default [] (get part_citations (generatedResponsePart c))) in
      foldl append_ref cites (default [] (retrievedReferences c)))
    cites (default [] (citations rag)) in
  let cites :=
    match cites, top_retrievedReferences rag with
    | [], Some refs => foldl append_ref cites refs
    | _, _ => cites
    end in
  take 8 cites.

(** *** Persona helpers *)

Definition _persona_temperature (base : Float.float) (persona : str) : Float.float :=
  let p := Py.strip (Py.lower persona) in
  if bool_decide (p = u "formal") then
    Float.max (Float.decimal 1 1) (Float.sub base (Float.decimal 15 2))
  else if bool_decide (p = u "humorous") then
    Float.min (Float.decimal 1 0) (Float.add base (Float.decimal 4 1))
  else Float.min (Float.decimal 1 0) (Float.add base (Float.decimal 2 1)).

Definition _persona_or_default (p : option str) : str :=
  let p := Py.strip (Py.lower (default [] p)) in
  if bool_decide (p ∈ [u "friendly"; u "formal"; u "humorous"]) then p
  else u "friendly".

(** *** Collaborators and configuration

    The retrieval-and-generate call and the translation call are taken as
    functions of their arguments; either may raise.  [translate_text]
    receives [Text] and [TargetLanguageCode] and returns the
    [TranslatedText] entry of the response, if it has one. *)
Record collaborators := {
  BASE_TEMP : Float.float;
  retrieve_and_generate : str → str → Float.float → result rag_response;
  translate_text : str → str → result (option str)
}.

(** *** Translation *)

Definition _translate_from_ru (env : collaborators) (text target_lang : str) : result str :=
  let tl := Py.lower target_lang in
  let tgt := if Py.startswith tl (u "kk") then u "kk" else u "en" in
  match translate_text env text tgt with
  | Raise e => Raise e
  | Ok resp =>
      let t := Py.strip (default [] resp) in
      Ok (if truthy t then t else text)
  end.

(** *** HTTP helpers and handler *)

(** The request body after [_parse_event]. *)
Record request := {
  req_text : option str;
  req_lang : option str;
  req_persona : option str
}.

Inductive payload : Type :=
| Failure (error detail : str)
| Answer (lang persona : str) (temperature_used : Float.float)
         (answer : str) (cites : list cite).

Record response := { statusCode : Z; body : payload }.

Definition _resp (status : Z) (p : payload) : response :=
  {| statusCode := status; body := p |}.

Definition lambda_handler (env : collaborators) (data : request) : response :=
  let text := Py.strip (or_else (req_text data) []) in
  let lang := Py.lower (Py.strip (or_else (req_lang data) (u "ru"))) in
  let persona_in := _persona_or_default (req_persona data) in
  if negb (truthy text) then
    _resp 400 (Failure (u "bad_request") (u "Missing 'text' in request body"))
  else
    let temp_used := _persona_temperature (BASE_TEMP env) persona_in in
    match retrieve_and_generate env text persona_in temp_used with
    | Raise e => _resp 500 (Failure (u "inference_failed") e)
    | Ok rag =>
        let raw_answer_ru := or_else (get output_text (rag_output rag)) [] in
        let cleaned_ru := _final_sanitize raw_answer_ru in
        let final_answer :=
          if Py.startswith lang (u "kk") || Py.startswith lang (u "en")
          then _translate_from_ru env cleaned_ru lang
          else Ok cleaned_ru in
        match final_answer with
        | Raise e => _resp 500 (Failure (u "inference_failed") e)
        | Ok final_answer =>
            let cites := _extract_citations rag in
            _resp 200 (Answer lang persona_in (Float.round temp_used 3)
                              final_answer cites)
        end
    end.

End AiGuide.

(** ** [functions/vision-recognize/attraction-scanner.py] *)

Module Scanner.
Import Re.

Definition QUOTE : N := 34.

(** *** Constants and environment *)

(** [ALLOWED_MIME]: image/jpeg is jpeg, image/png is png. *)
Definition ALLOWED_MIME (mime : bytes) : option str :=
  if bool_decide (mime = b "image/jpeg") then Some (u "jpeg")
  else if bool_decide (mime = b "image/png") then Some (u "png")
  else None.

Definition MAX_BYTES : N := 5 * 1024 * 1024.

(** An entry of [LANDMARKS_JSON]: a JSON object with string values. *)
Abbreviation landmark := (gmap str str).

(** Process environment and the vision collaborator.  [converse] receives
    the instruction text, the image format and the image, and returns the
    content blocks of the reply, each with its ["text"] entry if it has
    one.  [set_order] is the order in which Python iterates a set built
    from the given elements. *)
Record env := {
  LANDMARKS : list landmark;
  DRY_RUN : bool;
  converse : str → str → bytes → result (list (option str));
  set_order : list str → list str
}.


(** *** Helpers *)

Definition localized_name (landmarks : list landmark) (landmark_id lang : str) : str :=
  match List.find (λ lm : landmark, bool_decide (lm !! u "id" = Some landmark_id))
                  landmarks with
  | Some lm =>
      default (default landmark_id (lm !! u "name_ru")) (lm !! (u "name_" ++ lang))
  | None => landmark_id
  end.

Definition msg_no_object (lang : str) : str :=
  if bool_decide (lang = u "ru") then u8 "Не удалось распознать достопримечательность."
  else if bool_decide (lang = u "kk") then u8 "Нысанды тану мүмкін болмады."
  else if bool_decide (lang = u "en") then u "Could not recognize the landmark."
  else u8 "Не удалось распознать достопримечательность.".

Definition msg_try_closer (lang : str) : str :=
  if bool_decide (lang = u "ru") then u8 "Попробуйте сфотографировать ближе."
  else if bool_decide (lang = u "kk") then u8 "Жақынырақ түсіріп көріңіз."
  else if bool_decide (lang = u "en") then u "Try taking a closer photo."
  else u8 "Попробуйте сфотографировать ближе.".

Definition msg_success (name lang persona : str) : str :=
  if bool_decide (lang = u "kk") then
    u8 "Супер! Бұл " ++ name ++ u8 " – квест тапсырмасы орындалды!"
  else if bool_decide (lang = u "en") then
    u8 "Great! That’s " ++ name ++ u8 " — quest checkpoint completed!"
  else u8 "Супер! Это " ++ name ++ u8 " — квест засчитан!".

(** *** Classification *)

Record detection := { det_id : str; confidence : Float.float }.

(** [\{[^{}]*Qid Q\s*:\s*Q([^Q]+)Q[^{}]*Qconfidence Q\s*:\s*([0-9.]+)[^{}]*\}],
    where Q stands for the double quote character (here and below) and the
    blank before a closing Q is not part of the pattern *)
Definition DETECTION_RE : regex :=
  let q := Chr (is_ch QUOTE) in
  let ws := star Py.isspace in
  let inner := star (isnt (u "{}")) in
  seq [lit "{"; inner; q; lit "id"; q; ws; lit ":"; ws;
       q; Grp (plus (isnt [QUOTE])); q; inner;
       q; lit "confidence"; q; ws; lit ":"; ws;
       Grp (plus (oneof (u "0123456789."))); inner; lit "}"].

(** One line of the candidate list; reading the id of an entry that has
    none raises [KeyError]. *)
Definition candidate_line (lm : landmark) : result str :=
  match lm !! u "id" with
  | None => Raise (u "'id'")
  | Some id =>
      let name_en := default id (lm !! u "name_en") in
      let hint := default [] (lm !! u "hint_en") in
      Ok (u "- " ++ name_en ++ u " (id: " ++ id ++ u ")"
          ++ (if AiGuide.truthy hint then u " - " ++ hint else []))
  end.

Fixpoint candidate_lines (landmarks : list landmark) : result (list str) :=
  match landmarks with
  | [] => Ok []
  | lm :: rest =>
      match candidate_line lm with
      | Raise e => Raise e
      | Ok line =>
          match candidate_lines rest with
          | Raise e => Raise e
          | Ok lines => Ok (line :: lines)
          end
      end
  end.

(** The lines joined by newlines. *)
Fixpoint join_lines (lines : list str) : str :=
  match lines with
  | [] => []
  | [l] => l
  | l :: rest => l ++ [NL] ++ join_lines rest
  end.

Definition instruction (lines : list str) : str :=
  u "You are an extremely strict image classifier for landmarks in Astana, Kazakhstan."
  ++ [NL]
  ++ u "Choose ONE best match from the list or return id=" ++ [QUOTE] ++ u "none"
  ++ [QUOTE] ++ u " if no match." ++ [NL]
  ++ u "Return ONLY compact JSON: {" ++ [QUOTE] ++ u "id" ++ [QUOTE] ++ u ":"
  ++ [QUOTE] ++ u "..." ++ [QUOTE] ++ u "," ++ [QUOTE] ++ u "confidence" ++ [QUOTE]
  ++ u ":0..1}." ++ [NL]
  ++ u "Candidates:" ++ [NL] ++ join_lines lines.

(** Lines 177-188: the id the model named, matched against the catalog.
    [known_ids] is a set; the loop over it follows [order]. *)
Definition resolve (order : list str → list str) (det_id : str)
    (landmarks : list landmark) : option str :=
  if bool_decide (Py.lower det_id = u "none") then None
  else
    let known_ids := order (omap (λ lm : landmark, lm !! u "id") landmarks) in
    if bool_decide (det_id ∈ known_ids) then Some det_id
    else
      let det_low := Py.lower det_id in
      List.find (λ kid, Py.contains kid det_low) known_ids.

(** Lines 167-189: from the reply text to the detection. *)
Definition detect (order : list str → list str) (text_out : str)
    (landmarks : list landmark) : result (option detection) :=
  match search DETECTION_RE text_out with
  | None => Ok None
  | Some m =>
      let det_id := Py.strip (group 1 m) in
      match Float.of_token (group 2 m) with
      | Raise e => Raise e
      | Ok conf =>
          match resolve order det_id landmarks with
          | None => Ok None
          | Some id => Ok (Some {| det_id := id; confidence := conf |})
          end
      end
  end.

Definition classify_with_llama (e : env) (image_bytes : bytes) (img_format : str)
    (landmarks : list landmark) : result (option detection) :=
  match landmarks with
  | [] => Ok None
  | _ =>
      match candidate_lines landmarks with
      | Raise err => Raise err
      | Ok lines =>
          match converse e (instruction lines) img_format image_bytes with
          | Raise err => Raise err
          | Ok blocks =>
              let text_out := foldl (λ acc blk, acc ++ default [] blk) [] blocks in
              detect (set_order e) text_out landmarks
          end
      end
  end.

(** *** Multipart decoding *)

Record file_part := {
  filename : str;
  file_content_type : bytes;
  file_content : bytes
}.

(** A value of the dictionary [parse_multipart] returns. *)
Inductive field : Type :=
| Text (s : str)
| File (f : file_part).

(** [boundary=Q?([^Q;]+)Q?], IGNORECASE *)
Definition BOUNDARY_RE : regex :=
  seq [lit_ci "boundary="; opt (is_ch QUOTE);
       Grp (plus (isnt [QUOTE; cp ";"])); opt (is_ch QUOTE)].

(** [name=Q([^Q]+)Q], IGNORECASE *)
Definition NAME_RE : regex :=
  seq [lit_ci "name="; Chr (is_ch QUOTE); Grp (plus (isnt [QUOTE]));
       Chr (is_ch QUOTE)].

(** [filename=Q([^Q]+)Q], IGNORECASE *)
Definition FILENAME_RE : regex :=
  seq [lit_ci "filename="; Chr (is_ch QUOTE); Grp (plus (isnt [QUOTE]));
       Chr (is_ch QUOTE)].

(** What follows the first colon of the line (the second piece of a
    split at the first colon); the caller has checked that the line has a
    colon. *)
Definition after_colon (line : str) : str :=
  match Py.find (u ":") line with
  | Some i => drop (S i) line
  | None => []
  end.

(** Body of the loop over the header lines of a segment. *)
Definition scan_header (acc : option str * option bytes) (line : str)
    : option str * option bytes :=
  let '(disp, ctype) := acc in
  let L := Py.lower line in
  if Py.startswith L (u "content-disposition:") then (Some line, ctype)
  else if Py.startswith L (u "content-type:")
       then (disp, Some (Py.encode (Py.strip (after_colon line))))
       else acc.

(** Body of the loop over the chunks of the body. *)
Definition parse_chunk (end_delimiter : bytes) (out : gmap str field) (ch : bytes)
    : gmap str field :=
  let ch := Py.bstrip ch in
  if bool_decide (ch = []) || bool_decide (ch = b "--")
     || bool_decide (ch = end_delimiter) then out
  else
    match Py.find (Py.CRLF ++ Py.CRLF) ch with
    | None => out
    | Some h_end =>
        let raw_headers := Py.decode_ignore (take h_end ch) in
        let data := Py.rstrip_crlf (drop (h_end + 4) ch) in
        let '(disp, ctype) :=
          foldl scan_header (None, None) (Py.split [13; NL] raw_headers) in
        match disp with
        | None | Some [] => out
        | Some disp =>
            match search NAME_RE disp with
            | None => out
            | Some name_m =>
                let name := group 1 name_m in
                match search FILENAME_RE disp with
                | Some file_m =>
                    let ctype :=
                      match ctype with
                      | Some ((_ :: _) as c) => c
                      | _ => b "application/octet-stream"
                      end in
                    <[u "file" := File {| filename := group 1 file_m;
                                          file_content_type := ctype;
                                          file_content := data |}]> out
                | None => <[name := Text (Py.decode_ignore data)]> out
                end
            end
        end
    end.

Definition parse_multipart (body : bytes) (content_type : str)
    : result (gmap str field) :=
  match search BOUNDARY_RE content_type with
  | None => Raise (u "boundary not found")
  | Some m =>
      let boundary := Py.encode (group 1 m) in
      let delimiter := b "--" ++ boundary in
      let end_delimiter := b "--" ++ boundary ++ b "--" in
      let chunks := Py.split delimiter body in
      Ok (foldl (parse_chunk end_delimiter) ∅ chunks)
  end.

(** *** Lambda entry point *)

(** The event of the proxy integration.  [body] is the outcome of
    [base64.b64decode] on the body of the event. *)
Record event := {
  headers : option (list (str * str));
  isBase64Encoded : bool;
  body : result bytes
}.

Record detection_out := {
  name : str;
  id : str;
  reported_confidence : Float.float
}.

Inductive payload : Type :=
| Message (message : str)
| Scan (lang persona : str) (detections : list detection_out) (answer : str).

Record response := { statusCode : Z; payload_of : payload }.

Definition _resp (code : Z) (obj : payload) : response :=
  {| statusCode := code; payload_of := obj |}.

(** [(fields.get(key) or dflt).lower()] *)
Definition field_lower (fields : gmap str field) (key dflt : str) : result str :=
  match fields !! key with
  | None | Some (Text []) => Ok (Py.lower dflt)
  | Some (Text s) => Ok (Py.lower s)
  | Some (File _) => Raise (u "'dict' object has no attribute 'lower'")
  end.

Definition internal_error (e : str) : response :=
  _resp 500 (Message (u "Internal error: " ++ e)).

Definition lambda_handler (e : env) (ev : event) : response :=
  let headers : gmap str str :=
    foldl (λ h kv, <[Py.lower (fst kv) := snd kv]> h) ∅ (default [] (headers ev)) in
  if negb (isBase64Encoded ev) then _resp 400 (Message (u "Body must be base64"))
  else
    let content_type :=
      match headers !! u "content-type" with
      | Some ((_ :: _) as v) => Some v
      | _ => headers !! u "Content-Type"
      end in
    match content_type with
    | None | Some [] => _resp 400 (Message (u "Expected multipart/form-data"))
    | Some content_type =>
    if negb (Py.contains (u "multipart/form-data") content_type)
    then _resp 400 (Message (u "Expected multipart/form-data"))
    else
    match body ev with
    | Raise err => internal_error err
    | Ok body_bytes =>
    match parse_multipart body_bytes content_type with
    | Raise err => internal_error err
    | Ok fields =>
    match field_lower fields (u "lang") (u "ru") with
    | Raise err => internal_error err
    | Ok lang =>
    match field_lower fields (u "persona") (u "formal") with
    | Raise err => internal_error err
    | Ok persona =>
    match fields !! u "file" with
    | None | Some (Text []) => _resp 400 (Message (u "file is required"))
    | Some (Text _) => internal_error (u "string indices must be integers, not 'str'")
    | Some (File file) =>
        let mime := file_content_type file in
        let img_bytes := file_content file in
        if MAX_BYTES <? N.of_nat (length img_bytes)
        then _resp 413 (Message (u "File too large"))
        else
        match ALLOWED_MIME mime with
        | None => _resp 415 (Message (u "Unsupported media type"))
        | Some format =>
            let det : result (option detection) :=
              if DRY_RUN e then
                match LANDMARKS e with
                | [] => Ok None
                | lm :: _ =>
                    match lm !! u "id" with
                    | None => Raise (u "'id'")
                    | Some i => Ok (Some {| det_id := i;
                                            confidence := Float.decimal 92 2 |})
                    end
                end
              else
                match classify_with_llama e img_bytes format (LANDMARKS e) with
                | Raise _ => Ok None
                | Ok d => Ok d
                end in
            match det with
            | Raise err => internal_error err
            | Ok None => _resp 200 (Scan lang persona [] (msg_no_object lang))
            | Ok (Some det) =>
                let name_local := localized_name (LANDMARKS e) (det_id det) lang in
                let confidence := confidence det in
                let shown := {| name := name_local; id := det_id det;
                                reported_confidence := Float.round confidence 2 |} in
                if Float.ltb confidence (Float.decimal 7 1)
                then _resp 200 (Scan lang persona [shown] (msg_try_closer lang))
                else _resp 200 (Scan lang persona [shown]
                                     (msg_success name_local lang persona))
            end
        end
    end end end end end end.

End Scanner.

(** ** Decidable equality of the values compared below *)

#[global] Instance file_part_eq_dec : EqDecision Scanner.file_part.
Proof. solve_decision. Defined.
#[global] Instance field_eq_dec : EqDecision Scanner.field.
Proof. solve_decision. Defined.

(** ** The specification's own wording, for comparison with the code *)

Module Spec.
Import AiGuide.

(** Section 4.3: a located reference yields a citation when it has a URI
    (file-storage location first, web location second). *)
Definition cite_of (ref : reference) : option cite :=
  if truthy (ref_uri ref)
  then Some {| cite_uri := ref_uri ref; snippet := take 600 (ref_text ref) |}
  else None.

Definition cites_of (refs : list reference) : list cite := omap cite_of refs.

(** Citations of one citation record: its generated-part citations, then
    its flat references. *)
Definition record_cites (c : citation) : list cite :=
  (default [] (get part_citations (generatedResponsePart c))
     ≫= λ prov, cites_of (default [] (part_retrievedReferences prov)))
  ++ cites_of (default [] (retrievedReferences c)).

Definition nested_cites (rag : rag_response) : list cite :=
  default [] (citations rag) ≫= record_cites.

(** The nested walk over every record; the top-level list only when the
    walk found nothing; at most 8, earliest first. *)
Definition extractCitations (rag : rag_response) : list cite :=
  take 8 (match nested_cites rag with
          | [] => cites_of (default [] (top_retrievedReferences rag))
          | found => found
          end).

End Spec.

(** ** Concrete values used as examples *)

Module Examples.

(** A reference stored at [location] with the given text. *)
Definition s3_ref (location text : string) : AiGuide.reference :=
  {| AiGuide.ref_location :=
       Some {| AiGuide.s3Location := Some {| AiGuide.uri := Some (u location) |};
               AiGuide.webLocation := None |};
     AiGuide.ref_content := Some {| AiGuide.text := Some (u text) |} |}.

(** A response with a top-level reference list only. *)
Definition rag_top_only : AiGuide.rag_response :=
  {| AiGuide.rag_output := Some {| AiGuide.output_text := Some (u "Bayterek is a tower.") |};
     AiGuide.citations := None;
     AiGuide.top_retrievedReferences :=
       Some [s3_ref "s3://kb/a.md" "alpha"; s3_ref "" "no uri"; s3_ref "s3://kb/b.md" "beta"] |}.


(** Collaborators of the text path: retrieval answers [rag_top_only], and
    translation either raises or returns the given entry. *)
Definition text_env (translation : result (option str)) : AiGuide.collaborators :=
  {| AiGuide.BASE_TEMP := Float.decimal 3 1;
     AiGuide.retrieve_and_generate := λ _ _ _, Ok rag_top_only;
     AiGuide.translate_text := λ _ _, translation |}.


(** The catalog of the specification's example: one landmark. *)
Definition bayterek : Scanner.landmark :=
  {[ u "id" := u "bayterek"; u "name_ru" := u8 "Байтерек";
     u "name_en" := u "Bayterek Tower" ]}.

(** A second landmark, without an English name. *)
Definition khan_shatyr : Scanner.landmark :=
  {[ u "id" := u "khan_shatyr"; u "name_ru" := u8 "Хан Шатыр" ]}.

(** An entry with no Russian name either. *)
Definition nameless : Scanner.landmark := {[ u "id" := u "expo" ]}.

Definition catalog : list Scanner.landmark := [bayterek; khan_shatyr; nameless].

(** A vision environment whose model replies with [reply] whatever it is
    shown, and whose sets are iterated in the order [order]. *)
Definition vision_env (reply : str) (order : list str → list str) : Scanner.env :=
  {| Scanner.LANDMARKS := catalog;
     Scanner.DRY_RUN := false;
     Scanner.converse := λ _ _ _, Ok [Some reply];
     Scanner.set_order := order |}.

(** An upload whose content type names no boundary. *)
Definition event_without_boundary : Scanner.event :=
  {| Scanner.headers := Some [(u "Content-Type", u "multipart/form-data")];
     Scanner.isBase64Encoded := true;
     Scanner.body := Ok [] |}.


(** The double quote, as an octet. *)
Definition quote : bytes := [ascii_of_N 34].

(** The segment of the text field lang=en, from the end of the delimiter
    line to the next delimiter. *)
Definition lang_segment : bytes :=
  Py.CRLF ++ b "Content-Disposition: form-data; name=" ++ quote ++ b "lang" ++ quote
  ++ Py.CRLF ++ Py.CRLF ++ b "en" ++ Py.CRLF.

(** The header lines of the file part, up to the declared type. *)
Definition disposition : bytes :=
  b "Content-Disposition: form-data; name=" ++ quote ++ b "file" ++ quote
  ++ b "; filename=" ++ quote ++ b "a.png" ++ quote.
Definition file_head : bytes := disposition ++ Py.CRLF ++ b "Content-Type: ".

(** The segment of the file part: header lines, an empty line, the octets
    of the file and the line break before the next delimiter. *)
Definition file_segment (ctype file : bytes) : bytes :=
  Py.CRLF ++ file_head ++ ctype ++ Py.CRLF ++ Py.CRLF ++ file ++ Py.CRLF.

(** The body of a form with a text field lang=en and a file part named
    file, with file name a.png, the given declared type and content. *)
Definition two_part_body (boundary ctype file : bytes) : bytes :=
  let delimiter := b "--" ++ boundary in
  delimiter ++ lang_segment ++ delimiter ++ file_segment ctype file
  ++ delimiter ++ b "--" ++ Py.CRLF.

(** The first octets of a PNG file and its last chunk. *)
Definition png : bytes :=
  ascii_of_N <$> [137; 80; 78; 71; 13; 10; 26; 10; 0; 73; 69; 78; 68; 174; 66; 96; 130].



(** A reply that names a catalog id with a confidence of 7. *)
Definition reply_confidence_7 : str :=
  u "{" ++ [34] ++ u "id" ++ [34] ++ u ":" ++ [34] ++ u "bayterek" ++ [34]
  ++ u "," ++ [34] ++ u "confidence" ++ [34] ++ u ":7}".

End Examples.

(** ** Landmark resolution as section 4.5 words it *)

Module ResolverSpec.
Import Scanner.

Definition catalog_ids (landmarks : list landmark) : list str :=
  omap (λ lm : landmark, lm !! u "id") landmarks.

(** Exact match first; otherwise the first catalog id, in catalog order,
    that the lower-cased guess contains; the sentinel none never matches. *)
Definition resolve (rawId : str) (catalog : list landmark) : option str :=
  if bool_decide (Py.lower rawId = u "none") then None
  else if bool_decide (rawId ∈ catalog_ids catalog) then Some rawId
  else List.find (λ kid, Py.contains kid (Py.lower rawId)) (catalog_ids catalog).



End ResolverSpec.

(** ** What a response shows *)

Module Shown.
Import Scanner.



End Shown.

(** ** Sign of a float *)

Module FloatSign.


End FloatSign.

(** ** Notions used to state the properties of the sanitizer *)

Module Markup.
Import Re.

Definition LT : N := 60.
Definition GT : N := 62.

(** The characters matched by one class of a pattern all satisfy [P]. *)
Fixpoint classes_in (P : N → Prop) (r : regex) : Prop :=
  match r with
  | Chr p | Rep _ _ _ p => ∀ c, p c = true → P c
  | Cat r1 r2 | Alt r1 r2 => classes_in P r1 ∧ classes_in P r2
  | Grp r => classes_in P r
  | Eps | Bol _ | Eol _ => True
  end.

(** The texts a pattern can consume, anchors and priorities aside. *)
Fixpoint matches (r : regex) (m : str) : Prop :=
  match r with
  | Chr p => ∃ c, m = [c] ∧ p c = true
  | Rep _ lo hi p =>
      Forall (λ c, p c = true) m ∧ (lo ≤ length m)%nat
      ∧ ∀ h, hi = Some h → (length m ≤ h)%nat
  | Cat r1 r2 => ∃ m1 m2, m = m1 ++ m2 ∧ matches r1 m1 ∧ matches r2 m2
  | Alt r1 r2 => matches r1 m ∨ matches r2 m
  | Grp r => matches r m
  | Eps | Bol _ | Eol _ => m = []
  end.

(** [t] is [s] with some characters satisfying [P] deleted or replaced by
    characters satisfying [P]. *)
Inductive edits (P : N → Prop) : str → str → Prop :=
| edits_nil : edits P [] []
| edits_keep c s t : edits P s t → edits P (c :: s) (c :: t)
| edits_drop c s t : P c → edits P s t → edits P (c :: s) t
| edits_subst c d s t : P c → P d → edits P s t → edits P (c :: s) (d :: t).

(** Neither angle bracket. *)
Definition plain (c : N) : Prop := c ≠ LT ∧ c ≠ GT.

(** The text after an opening angle bracket continues an HTML-like tag: a
    character other than the closing bracket, and a closing bracket
    somewhere after it. *)
Definition tag_body (s : str) : bool :=
  match s with
  | d :: s' => negb (d =? GT) && bool_decide (GT ∈ s')
  | [] => false
  end.

(** An HTML-like tag starts at the head of the text. *)
Definition tag_here (s : str) : bool :=
  match s with
  | c :: s' => (c =? LT) && tag_body s'
  | [] => false
  end.

(** An HTML-like tag starts somewhere in the text. *)
Fixpoint has_tag (s : str) : bool :=
  match s with
  | [] => false
  | _ :: s' => tag_here s || has_tag s'
  end.

(** Length of the run of characters of class [p] at the head of the text. *)
Fixpoint run_length (p : N → bool) (s : str) : nat :=
  match s with
  | c :: s' => if p c then S (run_length p s') else O
  | [] => O
  end.

(** No position of the text starts a run of three newlines. *)
Fixpoint short_runs (s : str) : bool :=
  match s with
  | [] => true
  | _ :: s' => (run_length (is_ch NL) s <? 3)%nat && short_runs s'
  end.

End Markup.

(** ** Notions used to state the property of the multipart decoder *)

Module Form.

(** A printable ASCII character other than the space. *)
Definition graphic (c : N) : bool := Py.in_range 0x21 0x7E c.

(** A boundary parameter: graphic characters other than the double quote
    and the semicolon, at least one. *)
Definition boundary_ok (boundary : str) : bool :=
  negb (bool_decide (boundary = []))
  && forallb (λ c, graphic c && negb (c =? 34) && negb (c =? 59)) boundary.


(** The last octet of the file is not one that [bytes.strip] removes. *)
Definition ends_in_data (file : bytes) : bool :=
  match last file with
  | Some c => negb (Py.isspace_byte c)
  | None => false
  end.

(** The Content-Type header of a form with the given boundary. *)
Definition form_header (boundary : str) : str :=
  u "multipart/form-data; boundary=" ++ boundary.

(** No occurrence of [sep] in [a ++ s] starts within [a]. *)
Fixpoint no_start {A} `{EqDecision A} (sep a s : list A) : Prop :=
  match a with
  | [] => True
  | c :: a' => Py.startswith (c :: a' ++ s) sep = false ∧ no_start sep a' s
  end.

(** [x] and [y] differ at a position both have. *)
Fixpoint clash {A} `{EqDecision A} (x y : list A) : bool :=
  match x, y with
  | c :: x', d :: y' => if bool_decide (c = d) then clash x' y' else true
  | _, _ => false
  end.

(** Every suffix of [a] differs from [sep] at a position both have. *)
Fixpoint safe {A} `{EqDecision A} (sep a : list A) : bool :=
  match a with
  | [] => true
  | _ :: a' => clash a sep && safe sep a'
  end.

End Form.

(** ** Notions used to state the properties of the upload handler *)

Module Upload.
Import Scanner.

(** The content type the handler reads from the event: header names are
    lower-cased first (lines 28 and 34). *)
Definition content_type_header (ev : event) : option str :=
  let headers : gmap str str :=
    foldl (λ h kv, <[Py.lower (fst kv) := snd kv]> h) ∅ (default [] (headers ev)) in
  match headers !! u "content-type" with
  | Some ((_ :: _) as v) => Some v
  | _ => headers !! u "Content-Type"
  end.

(** The event is a base64 multipart upload whose body decodes to [fields]. *)
Definition decodes_to (ev : event) (fields : gmap str field) : Prop :=
  isBase64Encoded ev = true
  ∧ ∃ ct bd, content_type_header ev = Some ct
             ∧ Py.contains (u "multipart/form-data") ct = true
             ∧ body ev = Ok bd
             ∧ parse_multipart bd ct = Ok fields.


End Upload.

(** ** Notions used to state further properties of the multipart decoder *)

Module Parts.
Import Scanner.


(** [c] occurs in [s] as a contiguous piece. *)
Definition piece_of {A} (c s : list A) : Prop := ∃ a z, s = a ++ c ++ z.

(** The segment of a file part that declares no type: the disposition
    line, an empty line, the octets of the file and a line break. *)
Definition untyped_segment (file : bytes) : bytes :=
  Py.CRLF ++ Examples.disposition ++ Py.CRLF ++ Py.CRLF ++ file ++ Py.CRLF.

(** The body of a form with the text field lang=en and such a file part. *)
Definition untyped_body (boundary file : bytes) : bytes :=
  let delimiter := b "--" ++ boundary in
  delimiter ++ Examples.lang_segment ++ delimiter ++ untyped_segment file
  ++ delimiter ++ b "--" ++ Py.CRLF.

End Parts.

(** ** Notions used to state further properties of the sanitizer *)

Module Plain.
Import Re.

(** Every text the pattern can consume holds a character satisfying [Q]. *)
Fixpoint needs (Q : N → Prop) (r : regex) : Prop :=
  match r with
  | Chr p => ∀ c, p c = true → Q c
  | Rep _ lo _ p => (1 ≤ lo)%nat ∧ ∀ c, p c = true → Q c
  | Cat r1 r2 => needs Q r1 ∨ needs Q r2
  | Alt r1 r2 => needs Q r1 ∧ needs Q r2
  | Grp r => needs Q r
  | Eps | Bol _ | Eol _ => False
  end.

(** The characters that start a marker the sanitizer looks for: the
    opening angle and square brackets, the colon and the hash. *)
Definition mark (c : N) : bool := bool_decide (c ∈ [cp "<"; cp "["; cp ":"; cp "#"]).

(** The characters the markdown stage removes or replaces. *)
Definition symbol (c : N) : bool := bool_decide (c ∈ [cp "|"; cp "*"; cp "`"]).

(** Text that holds no marker start, no markdown symbol and no run of
    three newlines. *)
Definition plain_text (s : str) : bool :=
  forallb (λ c, negb (mark c) && negb (symbol c)) s && Markup.short_runs s.

End Plain.

(** ** The entry point of the text handler

    [_parse_event] and the first lines of [lambda_handler] of
    [lambda_function.py], which read the request out of the event.  The
    event and the decoded body are JSON values; [json.loads] is taken as a
    function that may raise. *)

Module AiGuideEntry.
Import AiGuide.

(** A value as [json.loads] builds it. *)
Inductive json : Type :=
| JNull
| JBool (v : bool)
| JInt (n : Z)
| JFloat (x : Float.float)
| JStr (s : str)
| JList (l : list json)
| JDict (d : gmap str json).

(** [type(v).__name__] *)
Definition type_name (v : json) : str :=
  match v with
  | JNull => u "NoneType"
  | JBool _ => u "bool"
  | JInt _ => u "int"
  | JFloat _ => u "float"
  | JStr _ => u "str"
  | JList _ => u "list"
  | JDict _ => u "dict"
  end.

(** [bool(v)] *)
Definition truthy (v : json) : bool :=
  match v with
  | JNull => false
  | JBool v => v
  | JInt n => negb (n =? 0)%Z
  | JFloat x => match x with S754_zero _ => false | _ => true end
  | JStr s => AiGuide.truthy s
  | JList l => match l with [] => false | _ => true end
  | JDict d => negb (bool_decide (d = ∅))
  end.

(** The text of the [AttributeError] raised by [v.name]. *)
Definition no_attribute (v : json) (name : string) : str :=
  u "'" ++ type_name v ++ u "' object has no attribute '" ++ u name ++ u "'".

Definition _parse_event (loads : str → result json) (event : json) : json :=
  match event with
  | JDict d =>
      match d !! u "body" with
      | Some body =>
          match body with
          | JStr s =>
              match loads s with
              | Ok v => v
              | Raise _ => JDict ∅
              end
          | JDict _ => body
          | _ => JDict ∅
          end
      | None => event
      end
  | _ => JDict ∅
  end.

(** [(data.get(key) or dflt).method()] up to the point where the method
    is looked up: the string the method is called on, [None] standing for
    the default, or the [AttributeError] of a true value that is not a
    string. *)
Definition str_field (data : gmap str json) (key : str) (method : string)
    : result (option str) :=
  match data !! key with
  | None => Ok None
  | Some v =>
      if truthy v then
        match v with
        | JStr s => Ok (Some s)
        | _ => Raise (no_attribute v method)
        end
      else Ok None
  end.

(** [lambda_handler(event, context)]: lines 261-264 read the request,
    the rest is [AiGuide.lambda_handler]. *)
Definition lambda_handler (env : collaborators) (loads : str → result json)
    (event : json) : response :=
  match _parse_event loads event with
  | JDict data =>
      match str_field data (u "text") "strip" with
      | Raise e => _resp 500 (Failure (u "inference_failed") e)
      | Ok text =>
      match str_field data (u "lang") "strip" with
      | Raise e => _resp 500 (Failure (u "inference_failed") e)
      | Ok lang =>
      match str_field data (u "persona") "lower" with
      | Raise e => _resp 500 (Failure (u "inference_failed") e)
      | Ok persona =>
          AiGuide.lambda_handler env
            {| req_text := text; req_lang := lang; req_persona := persona |}
      end end end
  | v => _resp 500 (Failure (u "inference_failed") (no_attribute v "get"))
  end.

End AiGuideEntry.

(** ** The vision client

    [bedrock_client] of [attraction-scanner.py]: the client is created on
    first use, for the region read from the environment, and kept. *)

Module ScannerClient.

(** The region the client is created for, from the value of
    [BEDROCK_REGION], if it is set. *)
Definition client_region (bedrock_region : option str) : str :=
  Py.replace (u " ") []
    (Py.strip (AiGuide.or_else (Some (default (u "us-east-1") bedrock_region))
                               (u "us-east-1"))).

(** [bedrock_client()], with the global [_bedrock] passed in and out;
    [new_client] stands for [boto3.client]. *)
Definition bedrock_client {C : Type} (new_client : str → C)
    (bedrock_region : option str) (_bedrock : option C) : C * option C :=
  match _bedrock with
  | Some c => (c, _bedrock)
  | None =>
      let c := new_client (client_region bedrock_region) in
      (c, Some c)
  end.

End ScannerClient.

(** * Properties *)

(** ** The matcher and the string primitives *)

Section Patterns.
Import Re Markup.

Section Engine.
Context {A : Type}.

(** A successful repetition consumed a prefix all of whose characters are
    of the class, at least [lo] of them, and handed the rest to the
    continuation. *)
Lemma rep_sound (g : bool) (p : N → bool) (lo : nat) (hi : option nat)
    (k : str → str → option A) (pre rest : str) (x : A) :
  rep g p lo hi k pre rest = Some x →
  ∃ m rest', rest = m ++ rest' ∧ matches (Rep g lo hi p) m
             ∧ k (rev m ++ pre) rest' = Some x.
Proof.
  revert lo hi pre. induction rest as [|c rest IH]; intros lo hi pre.
  - simpl. intros H.
    assert (k pre [] = Some x ∧ lo = O) as [Hk ->].
    { destruct g, lo; try done; destruct (k pre []); done. }
    exists [], []. simpl.
    split; [done|]. split; [|done]. split; [constructor|]. split; [lia|]. intros; lia.
  - assert (Hmore : (if p c && may_take hi
                     then rep g p (pred lo) (pred <$> hi) k (c :: pre) rest
                     else None) = Some x →
                    ∃ m rest', c :: rest = m ++ rest' ∧ matches (Rep g lo hi p) m
                               ∧ k (rev m ++ pre) rest' = Some x).
    { destruct (p c) eqn:Hc; [|done]. destruct (may_take hi) eqn:Hhi; [|done]. simpl.
      intros (m & rest' & -> & (Hm & Hlo & Hbound) & Hk)%IH.
      exists (c :: m), rest'. simpl. rewrite <- app_assoc. simpl.
      split; [done|]. split; [|done]. split; [by constructor|]. split; [lia|].
      intros h ->. destruct h as [|h]; [done|]. specialize (Hbound h eq_refl). lia. }
    assert (Hstop : match lo with O => k pre (c :: rest) | S _ => None end = Some x →
                    ∃ m rest', c :: rest = m ++ rest' ∧ matches (Rep g lo hi p) m
                               ∧ k (rev m ++ pre) rest' = Some x).
    { destruct lo; [|done]. intros Hk. exists [], (c :: rest). simpl.
      split; [done|]. split; [|done]. split; [constructor|]. split; [lia|]. intros; lia. }
    simpl. destruct g.
    + destruct (if p c && may_take hi then _ else _) eqn:E.
      * intros [= <-]. by apply Hmore.
      * apply Hstop.
    + destruct (match lo with O => _ | S _ => _ end) eqn:E.
      * intros [= <-]. by apply Hstop.
      * apply Hmore.
Qed.

(** A successful run consumed a prefix of the text that the pattern can
    consume, and handed the state after it to the continuation. *)
Lemma run_sound (r : regex) (k : mstate → option A) (st : mstate) (x : A) :
  run r k st = Some x →
  ∃ m st', matches r m ∧ before st' = rev m ++ before st
           ∧ after st = m ++ after st' ∧ k st' = Some x.
Proof.
  revert k st. induction r as [p|g lo hi p|r1 IH1 r2 IH2|r1 IH1 r2 IH2| |r IH|ml|ml];
    simpl; intros k st Hrun.
  - destruct (after st) as [|c rest] eqn:Hafter; [done|].
    destruct (p c) eqn:Hc; [|done].
    exists [c], (MState (c :: before st) rest (groups st)). simpl. eauto 10.
  - apply rep_sound in Hrun as (m & rest' & Hrest & Hm & Hk).
    exists m, (MState (rev m ++ before st) rest' (groups st)). simpl. eauto.
  - apply IH1 in Hrun as (m1 & st1 & Hm1 & Hb1 & Ha1 & Hrun).
    apply IH2 in Hrun as (m2 & st2 & Hm2 & Hb2 & Ha2 & Hk).
    exists (m1 ++ m2), st2.
    rewrite Hb2, Hb1, Ha1, Ha2, rev_app_distr, <- !app_assoc. eauto 10.
  - destruct (run r1 k st) eqn:E.
    + injection Hrun as ->. apply IH1 in E as (m & st' & ? & ? & ? & ?). eauto 10.
    + apply IH2 in Hrun as (m & st' & ? & ? & ? & ?). eauto 10.
  - exists [], st. eauto.
  - apply IH in Hrun as (m & st' & Hm & Hb & Ha & Hk).
    eexists m, (MState (before st') (after st') _). simpl. eauto.
  - destruct (at_bol ml (before st)); [|done]. exists [], st. eauto.
  - destruct (at_eol ml (after st)); [|done]. exists [], st. eauto.
Qed.
End Engine.

Lemma match_at_sound (r : regex) (pre s : str) (st : mstate) :
  match_at r pre s = Some st →
  ∃ m, matches r m ∧ before st = rev m ++ pre ∧ s = m ++ after st.
Proof.
  intros Hm. apply run_sound in Hm as (m & st' & Hm & Hb & Ha & [= ->]).
  by exists m.
Qed.

Lemma match_len_sound (r : regex) (pre s : str) (n : nat) :
  match_len r pre s = Some n → (n ≤ length s)%nat ∧ matches r (take n s).
Proof.
  unfold match_len. destruct (match_at r pre s) as [st|] eqn:E; [|done].
  apply match_at_sound in E as (m & Hm & Hb & ->).
  simpl. intros [= <-]. rewrite Hb, length_app, length_rev.
  replace (length m + length pre - length pre)%nat with (length m) by lia.
  rewrite length_app. split; [lia|]. by rewrite take_app_length.
Qed.

Lemma matches_classes (P : N → Prop) (r : regex) (m : str) :
  classes_in P r → matches r m → Forall P m.
Proof.
  revert m. induction r as [p|g lo hi p|r1 IH1 r2 IH2|r1 IH1 r2 IH2| |r IH|ml|ml];
    simpl; intros m HP Hm.
  - destruct Hm as (c & -> & Hc). constructor; [by apply HP|constructor].
  - destruct Hm as (Hm & _). eapply Forall_impl; [exact Hm|]. intros c Hc. by apply HP.
  - destruct HP as [HP1 HP2], Hm as (m1 & m2 & -> & Hm1 & Hm2).
    apply Forall_app. split; [by apply IH1|by apply IH2].
  - destruct HP as [HP1 HP2], Hm as [Hm|Hm]; [by apply IH1|by apply IH2].
  - subst m. constructor.
  - by apply IH.
  - subst m. constructor.
  - subst m. constructor.
Qed.

(** *** Substitution *)

Lemma sub_go_skip (r : regex) (repl pre s : str) (k : nat) :
  sub_go r repl pre s k = sub_go r repl (rev (take k s) ++ pre) (drop k s) 0.
Proof.
  revert pre k. induction s as [|c s IH]; intros pre k.
  - by destruct k.
  - destruct k as [|k]; [done|]. simpl sub_go at 1. rewrite IH. simpl.
    by rewrite <- app_assoc.
Qed.

Lemma sub_go_step (r : regex) (repl pre : str) (c : N) (s : str) :
  sub_go r repl pre (c :: s) 0
  = match match_len r pre (c :: s) with
    | Some (S n) =>
        repl ++ sub_go r repl (rev (take (S n) (c :: s)) ++ pre) (drop (S n) (c :: s)) 0
    | _ => c :: sub_go r repl (c :: pre) s 0
    end.
Proof.
  simpl sub_go at 1. destruct (match_len r pre (c :: s)) as [[|n]|]; [done| |done].
  rewrite sub_go_skip. simpl. by rewrite <- app_assoc.
Qed.

(** Where the pattern matches nowhere, substitution changes nothing. *)
Lemma sub_go_no_match (r : regex) (repl pre s : str) :
  search_go r pre s = None → sub_go r repl pre s 0 = s.
Proof.
  revert pre. induction s as [|c s IH]; intros pre; [done|].
  simpl. unfold match_len. destruct (match_at r pre (c :: s)); [done|].
  simpl. intros Hs. by rewrite IH.
Qed.

Lemma sub_no_match (r : regex) (repl s : str) :
  search r s = None → sub r repl s = s.
Proof. apply sub_go_no_match. Qed.

(** Substitution invents no character. *)
Lemma elem_of_sub_go (r : regex) (repl pre s : str) (k : nat) (x : N) :
  x ∈ sub_go r repl pre s k → x ∈ s ∨ x ∈ repl.
Proof.
  revert pre k. induction s as [|c s IH]; intros pre k; simpl.
  - by intros ?%elem_of_nil.
  - destruct k as [|k].
    + destruct (match_len r pre (c :: s)) as [[|n]|].
      * intros [->|[?|?]%IH]%elem_of_cons; set_solver.
      * intros [?|[?|?]%IH]%elem_of_app; set_solver.
      * intros [->|[?|?]%IH]%elem_of_cons; set_solver.
    + intros [?|?]%IH; set_solver.
Qed.

(** *** Edits *)

Lemma edits_refl (P : N → Prop) (s : str) : edits P s s.
Proof. induction s; constructor; done. Qed.

Lemma edits_app (P : N → Prop) (s1 t1 s2 t2 : str) :
  edits P s1 t1 → edits P s2 t2 → edits P (s1 ++ s2) (t1 ++ t2).
Proof. intros H1 H2. induction H1; simpl; try done; by constructor. Qed.

Lemma edits_trans (P : N → Prop) (s t v : str) :
  edits P s t → edits P t v → edits P s v.
Proof.
  intros Hst. revert v. induction Hst as [|c s t Hst IH|c s t Hc Hst IH|c d s t Hc Hd Hst IH];
    intros v Htv.
  - done.
  - inversion Htv; subst;
      [apply edits_keep|apply edits_drop|apply edits_subst]; auto.
  - apply edits_drop; auto.
  - inversion Htv; subst;
      [apply edits_subst|apply edits_drop|apply edits_subst]; auto.
Qed.

Lemma edits_delete_all (P : N → Prop) (s : str) : Forall P s → edits P s [].
Proof. induction 1; constructor; done. Qed.

Lemma edits_rev (P : N → Prop) (s t : str) : edits P s t → edits P (rev s) (rev t).
Proof.
  induction 1 as [|c s t Hst IH|c s t Hc Hst IH|c d s t Hc Hd Hst IH]; simpl.
  - constructor.
  - apply edits_app; [done|apply edits_refl].
  - rewrite <- (app_nil_r (rev t)). apply edits_app; [done|].
    constructor; [done|constructor].
  - apply edits_app; [done|]. constructor; [done..|constructor].
Qed.

Lemma edits_elem (P : N → Prop) (s t : str) (x : N) :
  edits P s t → ¬ P x → x ∈ t → x ∈ s.
Proof.
  intros Hst Hx. induction Hst as [|c s t Hst IH|c s t Hc Hst IH|c d s t Hc Hd Hst IH].
  - done.
  - intros [->|?]%elem_of_cons; set_solver.
  - set_solver.
  - intros [->|?]%elem_of_cons; [done|set_solver].
Qed.

Section Strip.
Context {A : Type}.
Implicit Types (p : A → bool) (s : list A).

Lemma lstrip_by_suffix p s : ∃ a, s = a ++ Py.lstrip_by p s ∧ Forall (λ c, p c = true) a.
Proof.
  induction s as [|c s (a & Ha & Hall)]; simpl.
  - by exists [].
  - destruct (p c) eqn:Hc.
    + exists (c :: a). simpl. split; [by f_equal|by constructor].
    + by exists [].
Qed.

Lemma strip_by_infix p s :
  ∃ a z, s = a ++ Py.strip_by p s ++ z
         ∧ Forall (λ c, p c = true) a ∧ Forall (λ c, p c = true) z.
Proof.
  unfold Py.strip_by, Py.rstrip_by.
  destruct (lstrip_by_suffix p s) as (a & Ha & Hall).
  destruct (lstrip_by_suffix p (rev (Py.lstrip_by p s))) as (z & Hz & Hzall).
  exists a, (rev z). split; [|split; [done|]].
  - rewrite <- rev_app_distr, <- Hz, rev_involutive. done.
  - apply Forall_forall. intros x Hx. rewrite Forall_forall in Hzall.
    apply Hzall. apply list_elem_of_In. apply in_rev. by apply list_elem_of_In.
Qed.

Lemma lstrip_by_stops p c s : p c = false → Py.lstrip_by p (c :: s) = c :: s.
Proof. intros Hc. simpl. by rewrite Hc. Qed.

Lemma lstrip_by_head p s :
  match Py.lstrip_by p s with c :: _ => p c = false | [] => True end.
Proof.
  induction s as [|c s IH]; simpl; [done|]. destruct (p c) eqn:Hc; [done|]. done.
Qed.

Lemma lstrip_by_idem p s : Py.lstrip_by p (Py.lstrip_by p s) = Py.lstrip_by p s.
Proof.
  pose proof (lstrip_by_head p s) as H. destruct (Py.lstrip_by p s) as [|c t]; [done|].
  by apply lstrip_by_stops.
Qed.

Lemma lstrip_by_app_stop p s c t :
  p c = false → ∃ s', Py.lstrip_by p (s ++ c :: t) = s' ++ c :: t.
Proof.
  intros Hc. induction s as [|d s (s' & IH)]; simpl.
  - rewrite Hc. by exists [].
  - destruct (p d); [by exists s'|by exists (d :: s)].
Qed.

(** Stripping a stripped text changes nothing. *)
Lemma strip_by_idem p s : Py.strip_by p (Py.strip_by p s) = Py.strip_by p s.
Proof.
  unfold Py.strip_by, Py.rstrip_by.
  set (a := Py.lstrip_by p s).
  assert (Ha : Py.lstrip_by p a = a) by apply lstrip_by_idem.
  assert (Hl : Py.lstrip_by p (rev (Py.lstrip_by p (rev a)))
               = rev (Py.lstrip_by p (rev a))).
  { destruct a as [|c a']; [done|].
    assert (Hc : p c = false).
    { pose proof (lstrip_by_head p (c :: a')) as H. by rewrite Ha in H. }
    change (rev (c :: a')) with (rev a' ++ [c]).
    destruct (lstrip_by_app_stop p (rev a') c [] Hc) as (s' & ->).
    rewrite rev_app_distr. simpl. by rewrite Hc. }
  rewrite Hl, rev_involutive. by rewrite lstrip_by_idem.
Qed.
End Strip.

Lemma edits_strip_by (P : N → Prop) (p : N → bool) (s : str) :
  (∀ c, p c = true → P c) → edits P s (Py.strip_by p s).
Proof.
  intros HP. destruct (strip_by_infix p s) as (a & z & Hs & Ha & Hz).
  rewrite Hs at 1. rewrite <- (app_nil_l (Py.strip_by p s)) at 2.
  rewrite <- (app_nil_r (Py.strip_by p s)) at 2.
  apply edits_app; [|apply edits_app; [apply edits_refl|]];
    apply edits_delete_all; (eapply Forall_impl; [eassumption|]); intros c Hc; by apply HP.
Qed.

Lemma elem_of_strip_by {A} (p : A → bool) (s : list A) (x : A) :
  x ∈ Py.strip_by p s → x ∈ s.
Proof. destruct (strip_by_infix p s) as (a & z & Hs & _). rewrite Hs at 2. set_solver. Qed.

(** *** Substitution as an edit *)

Lemma sub_go_edits (P : N → Prop) (r : regex) (repl : str) :
  (∀ pre s n, match_len r pre s = Some n → edits P (take n s) repl) →
  ∀ s pre, edits P s (sub_go r repl pre s 0).
Proof.
  intros Hmatch s.
  induction s as [s IH] using (induction_ltof1 _ (@length N)). unfold ltof in IH.
  intros pre. destruct s as [|c s]; [constructor|].
  rewrite sub_go_step. destruct (match_len r pre (c :: s)) as [[|n]|] eqn:Hlen.
  - constructor. apply IH. simpl. lia.
  - rewrite <- (take_drop (S n) (c :: s)) at 1. apply edits_app.
    + by apply (Hmatch pre).
    + apply IH. rewrite length_drop. simpl. lia.
  - constructor. apply IH. simpl. lia.
Qed.

(** *** Replacement *)

Section Replace.
Context {A : Type} `{EqDecision A}.
Implicit Types (old new s : list A).

Lemma startswith_take s old :
  Py.startswith s old = true → take (length old) s = old.
Proof.
  revert s. induction old as [|x old IH]; intros s; [done|].
  destruct s as [|y s]; simpl; [done|].
  intros [->%bool_decide_eq_true Hs]%andb_true_iff. f_equal. by apply IH.
Qed.

Lemma startswith_nil s : Py.startswith s [] = true.
Proof. by destruct s. Qed.

Lemma startswith_app s old : Py.startswith (old ++ s) old = true.
Proof.
  induction old as [|x old IH]; simpl; [apply startswith_nil|].
  by rewrite bool_decide_eq_true_2.
Qed.

Lemma replace_go_skip old new s k :
  Py.replace_go old new s k = Py.replace_go old new (drop k s) 0.
Proof.
  revert k. induction s as [|c s IH]; intros k; [by destruct k|].
  destruct k as [|k]; [done|]. simpl Py.replace_go at 1. by rewrite IH.
Qed.

Lemma replace_go_step old new c s :
  old ≠ [] →
  Py.replace_go old new (c :: s) 0
  = if Py.startswith (c :: s) old
    then new ++ Py.replace_go old new (drop (length old) (c :: s)) 0
    else c :: Py.replace_go old new s 0.
Proof.
  intros Hold.
  change (Py.replace_go old new (c :: s) 0)
    with (if Py.startswith (c :: s) old
          then new ++ Py.replace_go old new s (pred (length old))
          else c :: Py.replace_go old new s 0).
  destruct (Py.startswith (c :: s) old); [|done].
  rewrite replace_go_skip. destruct old; [done|]. done.
Qed.

(** Replacing a text that does not occur changes nothing. *)
Lemma replace_absent old new s :
  (∀ x, head old = Some x → x ∉ s) → old ≠ [] → Py.replace old new s = s.
Proof.
  intros Hhead Hold. unfold Py.replace. induction s as [|c s IH]; [done|].
  rewrite replace_go_step by done.
  destruct old as [|x old]; [done|]. simpl.
  rewrite bool_decide_eq_false_2.
  - simpl. f_equal. apply IH. intros y Hy. specialize (Hhead y Hy). set_solver.
  - intros ->. apply (Hhead c); [done|]. set_solver.
Qed.

Lemma elem_of_replace_go old new s k x :
  x ∈ Py.replace_go old new s k → x ∈ s ∨ x ∈ new.
Proof.
  revert k. induction s as [|c s IH]; intros k; simpl.
  - by intros ?%elem_of_nil.
  - destruct k as [|k].
    + match goal with |- context [if ?b then _ else _] => destruct b end.
      * intros [?|[?|?]%IH]%elem_of_app; set_solver.
      * intros [->|[?|?]%IH]%elem_of_cons; set_solver.
    + intros [?|?]%IH; set_solver.
Qed.

(** A replaced character is gone, unless the replacement brings it back. *)
Lemma replace_single_gone c new s :
  c ∉ new → c ∉ Py.replace [c] new s.
Proof.
  intros Hnew. unfold Py.replace. induction s as [|d s IH]; simpl.
  - apply not_elem_of_nil.
  - rewrite startswith_nil. case_bool_decide as Hd; simpl.
    + rewrite elem_of_app. by intros [?|?].
    + rewrite elem_of_cons. intros [?|?]; [by subst|done].
Qed.
End Replace.

Lemma replace_edits (P : N → Prop) (old new s : str) :
  old ≠ [] → edits P old new → edits P s (Py.replace old new s).
Proof.
  intros Hold Hedit. unfold Py.replace.
  induction s as [s IH] using (induction_ltof1 _ (@length N)). unfold ltof in IH.
  destruct s as [|c s]; [constructor|].
  rewrite replace_go_step by done.
  destruct (Py.startswith (c :: s) old) eqn:Hstart.
  - rewrite <- (take_drop (length old) (c :: s)) at 1.
    rewrite (startswith_take _ _ Hstart). apply edits_app; [done|].
    apply IH. rewrite length_drop. destruct old; [done|]. simpl. lia.
  - constructor. apply IH. simpl. lia.
Qed.

(** *** HTML-like tags *)

Lemma edits_tag_body (s t : str) :
  edits plain s t → tag_body t = true → tag_body s = true.
Proof.
  assert (HGT : ¬ plain GT) by (intros [_ H]; done).
  intros Hst. destruct Hst as [|c s t Hst|c s t Hc Hst|c d s t Hc Hd Hst]; simpl.
  - done.
  - intros [Hc Ht]%andb_true_iff. rewrite Hc. simpl.
    apply bool_decide_eq_true in Ht. apply bool_decide_eq_true_2.
    eapply edits_elem; eauto.
  - intros Ht. destruct Hc as [_ Hc]. rewrite (proj2 (N.eqb_neq c GT) Hc). simpl.
    destruct t as [|d t]; [done|]. simpl in Ht.
    apply andb_true_iff in Ht as [_ Ht]. apply bool_decide_eq_true in Ht.
    apply bool_decide_eq_true_2. eapply edits_elem; eauto. set_solver.
  - intros [_ Ht]%andb_true_iff. destruct Hc as [_ Hc].
    rewrite (proj2 (N.eqb_neq c GT) Hc). simpl.
    apply bool_decide_eq_true in Ht. apply bool_decide_eq_true_2.
    eapply edits_elem; eauto.
Qed.

(** Deleting or replacing characters other than angle brackets creates no
    tag. *)
Lemma edits_has_tag (s t : str) :
  edits plain s t → has_tag s = false → has_tag t = false.
Proof.
  intros Hst. induction Hst as [|c s t Hst IH|c s t Hc Hst IH|c d s t Hc Hd Hst IH];
    simpl.
  - done.
  - intros [Hh Hs]%orb_false_iff. rewrite (IH Hs), orb_false_r.
    destruct (c =? LT); [|done]. simpl in *.
    destruct (tag_body t) eqn:Ht; [|done].
    by rewrite (edits_tag_body _ _ Hst Ht) in Hh.
  - intros [_ Hs]%orb_false_iff. by apply IH.
  - intros [_ Hs]%orb_false_iff. rewrite (IH Hs), orb_false_r.
    destruct Hd as [Hd _]. by rewrite (proj2 (N.eqb_neq d LT) Hd).
Qed.

(** *** Greedy repetition *)

Lemma run_length_prefix (p : N → bool) (m rest : str) :
  Forall (λ c, p c = true) m → (length m ≤ run_length p (m ++ rest))%nat.
Proof. induction 1 as [|c m Hc Hm IH]; simpl; [lia|]. rewrite Hc. lia. Qed.

Lemma run_length_take (p : N → bool) (s : str) :
  Forall (λ c, p c = true) (take (run_length p s) s).
Proof.
  induction s as [|c s IH]; simpl; [constructor|].
  destruct (p c) eqn:Hc; simpl; by constructor.
Qed.

Lemma run_length_le (p : N → bool) (s : str) : (run_length p s ≤ length s)%nat.
Proof. induction s as [|c s IH]; simpl; [lia|]. destruct (p c); simpl; lia. Qed.

Lemma run_length_stop (p : N → bool) (s : str) :
  match drop (run_length p s) s with c :: _ => p c = false | [] => True end.
Proof.
  induction s as [|c s IH]; simpl; [done|]. destruct (p c) eqn:Hc; simpl; done.
Qed.

(** A greedy unbounded repetition stops at the end of the run when the rest
    of the pattern succeeds there. *)
Lemma rep_greedy_max {A} (p : N → bool) (lo : nat) (k : str → str → option A)
    (pre s : str) (x : A) :
  (lo ≤ run_length p s)%nat →
  k (rev (take (run_length p s) s) ++ pre) (drop (run_length p s) s) = Some x →
  rep true p lo None k pre s = Some x.
Proof.
  revert lo pre. induction s as [|c s IH]; intros lo pre; simpl.
  - intros Hlo Hk. by replace lo with O by lia.
  - destruct (p c) eqn:Hc; simpl.
    + intros Hlo Hk. rewrite (IH (pred lo) (c :: pre)); [done|lia|].
      by rewrite <- app_assoc in Hk.
    + intros Hlo Hk. by replace lo with O by lia.
Qed.

(** *** Unfolding the matcher one constructor at a time *)

Lemma run_Cat {A} r1 r2 (k : mstate → option A) st :
  run (Cat r1 r2) k st = run r1 (run r2 k) st.
Proof. done. Qed.

Lemma run_Rep {A} g lo hi p (k : mstate → option A) st :
  run (Rep g lo hi p) k st
  = rep g p lo hi (λ pre rest, k (MState pre rest (groups st))) (before st) (after st).
Proof. done. Qed.

Lemma run_Chr {A} p (k : mstate → option A) pre c s g :
  run (Chr p) k (MState pre (c :: s) g)
  = if p c then k (MState (c :: pre) s g) else None.
Proof. done. Qed.

Lemma run_Eps {A} (k : mstate → option A) st : run Eps k st = k st.
Proof. done. Qed.

Lemma rep_cons {A} g p lo hi (k : str → str → option A) pre c s :
  rep g p lo hi k pre (c :: s)
  = if g then
      match (if p c && may_take hi
             then rep g p (pred lo) (pred <$> hi) k (c :: pre) s else None) with
      | Some x => Some x
      | None => match lo with O => k pre (c :: s) | S _ => None end
      end
    else
      match match lo with O => k pre (c :: s) | S _ => None end with
      | Some x => Some x
      | None => if p c && may_take hi
                then rep g p (pred lo) (pred <$> hi) k (c :: pre) s else None
      end.
Proof. by destruct g. Qed.

Lemma rep_nil {A} g p lo hi (k : str → str → option A) pre :
  rep g p lo hi k pre [] = match lo with O => k pre [] | S _ => None end.
Proof. destruct g, lo; simpl; try done. by destruct (k pre []). Qed.

(** *** The HTML tag pattern *)

Local Arguments rep : simpl never.
Local Arguments run : simpl never.

Lemma isnt_gt (c : N) : isnt (u ">") c = negb (c =? GT).
Proof.
  unfold isnt. change (u ">") with [GT]. destruct (N.eqb_spec c GT) as [->|Hc].
  - by rewrite bool_decide_eq_true_2 by set_solver.
  - rewrite bool_decide_eq_false_2; [done|]. by intros ?%list_elem_of_singleton.
Qed.

Lemma drop_run_until_gt (s : str) :
  GT ∈ s → ∃ rest, drop (run_length (isnt (u ">")) s) s = GT :: rest.
Proof.
  induction s as [|c s IH]; [by intros ?%elem_of_nil|].
  simpl. rewrite isnt_gt. destruct (N.eqb_spec c GT) as [->|Hc]; simpl.
  - by exists s.
  - intros [?|?]%elem_of_cons; [done|by apply IH].
Qed.

(** After the opening bracket: a character other than the closing bracket
    and a closing bracket later let the rest of the pattern succeed. *)
Lemma tag_rest_matches (pre : str) (d : N) (s : str) (g : list str) :
  d ≠ GT → GT ∈ s →
  is_Some (run (Cat (plus (isnt (u ">"))) (Cat (lit ">") Eps)) Some (MState pre (d :: s) g)).
Proof.
  intros Hd Hs. unfold plus. rewrite run_Cat, run_Rep. cbn [before after groups].
  destruct (drop_run_until_gt (d :: s)) as (rest & Hrest); [set_solver|].
  eexists. apply rep_greedy_max.
  - simpl. rewrite isnt_gt, (proj2 (N.eqb_neq d GT) Hd). simpl. lia.
  - rewrite Hrest. change (lit ">") with (Cat (Chr (N.eqb GT)) Eps).
    rewrite !run_Cat, run_Chr, N.eqb_refl, !run_Eps. done.
Qed.

Lemma html_tag_complete (pre s : str) :
  tag_here s = true → is_Some (match_at AiGuide.HTML_TAG_RE pre s).
Proof.
  destruct s as [|c [|d s]]; simpl; try done.
  - by rewrite andb_false_r.
  - intros [Hc%N.eqb_eq [Hd%negb_true_iff%N.eqb_neq
              Hs%bool_decide_eq_true]%andb_true_iff]%andb_true_iff. subst c.
    unfold match_at.
    change AiGuide.HTML_TAG_RE
      with (Cat (Cat (Chr (N.eqb LT)) Eps)
              (Cat (opt (N.eqb 47))
                   (Cat (plus (isnt (u ">"))) (Cat (lit ">") Eps)))).
    rewrite !run_Cat, run_Chr, N.eqb_refl, run_Eps, run_Cat. unfold opt.
    rewrite run_Rep.
    cbn [before after groups]. rewrite rep_cons.
    destruct (if _ && _ then _ else _) as [x|]; [by eexists|].
    by apply tag_rest_matches.
Qed.

Lemma html_matches_shape (m : str) :
  matches AiGuide.HTML_TAG_RE m →
  ∃ d body, m = LT :: d :: body ∧ d ≠ GT ∧ GT ∈ body.
Proof.
  change AiGuide.HTML_TAG_RE
    with (Cat (Cat (Chr (N.eqb LT)) Eps)
            (Cat (opt (N.eqb 47))
                 (Cat (plus (isnt (u ">"))) (Cat (Cat (Chr (N.eqb GT)) Eps) Eps)))).
  unfold opt, plus. cbn [matches].
  intros (m1 & m2 & -> & (? & ? & -> & (c1 & -> & Hc1%N.eqb_eq) & ->)
          & mo & m3 & -> & (Hmo & _ & Hbound)
          & mp & m4 & -> & (Hmp & Hlen & _)
          & ? & ? & -> & (? & ? & -> & (c2 & -> & Hc2%N.eqb_eq) & ->) & ->).
  subst c1 c2. simpl. specialize (Hbound 1%nat eq_refl).
  destruct mo as [|o mo].
  - destruct mp as [|d mp]; [simpl in Hlen; lia|].
    exists d, (mp ++ [GT]). simpl. split; [done|].
    apply Forall_cons in Hmp as [Hd _]. rewrite isnt_gt in Hd.
    split; [by apply N.eqb_neq, negb_true_iff|set_solver].
  - destruct mo; [|simpl in Hbound; lia].
    exists o, (mp ++ [GT]). simpl. split; [done|].
    apply Forall_cons in Hmo as [Ho%N.eqb_eq _]. subst o.
    split; [done|set_solver].
Qed.

Lemma html_tag_sound (pre s : str) (st : mstate) :
  match_at AiGuide.HTML_TAG_RE pre s = Some st → tag_here s = true.
Proof.
  intros (m & Hm & _ & ->)%match_at_sound.
  apply html_matches_shape in Hm as (d & body & -> & Hd & Hbody). simpl.
  rewrite (proj2 (N.eqb_neq d GT) Hd). simpl.
  apply bool_decide_eq_true_2. set_solver.
Qed.

Lemma html_tag_match (pre s : str) :
  match_at AiGuide.HTML_TAG_RE pre s = None ↔ tag_here s = false.
Proof.
  split.
  - intros Hnone. destruct (tag_here s) eqn:Ht; [|done].
    apply (html_tag_complete pre) in Ht as [st Hst]. congruence.
  - intros Ht. destruct (match_at AiGuide.HTML_TAG_RE pre s) as [st|] eqn:E; [|done].
    apply html_tag_sound in E. congruence.
Qed.

(** The pattern finds a tag exactly where the text has one. *)
Lemma html_search (pre s : str) :
  search_go AiGuide.HTML_TAG_RE pre s = None ↔ has_tag s = false.
Proof.
  revert pre. induction s as [|c s IH]; intros pre.
  - cbn [search_go has_tag]. by rewrite (proj2 (html_tag_match pre []) eq_refl).
  - cbn [search_go has_tag]. rewrite orb_false_iff, <- (IH (c :: pre)), <- (html_tag_match pre).
    destruct (match_at AiGuide.HTML_TAG_RE pre (c :: s)); split; try done.
    + by intros [? ?].
    + by intros [_ ?].
Qed.

(** One pass of tag removal leaves no tag. *)
Lemma sub_html_no_tag (s pre : str) :
  has_tag (sub_go AiGuide.HTML_TAG_RE [] pre s 0) = false.
Proof.
  revert pre. induction s as [s IH] using (induction_ltof1 _ (@length N)).
  unfold ltof in IH. intros pre. destruct s as [|c s]; [done|].
  rewrite sub_go_step.
  destruct (match_len AiGuide.HTML_TAG_RE pre (c :: s)) as [[|n]|] eqn:Hlen.
  - apply match_len_sound in Hlen as [_ Hm].
    by apply html_matches_shape in Hm as (? & ? & ? & _).
  - simpl app. apply IH. rewrite length_drop. simpl. lia.
  - assert (Ht : tag_here (c :: s) = false).
    { apply (html_tag_match pre). unfold match_len in Hlen.
      by destruct (match_at AiGuide.HTML_TAG_RE pre (c :: s)). }
    cbn [has_tag]. rewrite (IH s) by (simpl; lia). rewrite orb_false_r.
    cbn [tag_here] in *. destruct (c =? LT); [simpl in *|done].
    (* the opening bracket stays: what follows it cannot continue a tag *)
    destruct s as [|d s]; [done|]. rewrite sub_go_step.
    destruct (match_len AiGuide.HTML_TAG_RE (c :: pre) (d :: s)) as [[|n]|] eqn:Hd.
    + cbn [tag_body] in *. apply andb_false_iff in Ht as [Ht|Ht]; [by rewrite Ht|].
      apply andb_false_iff. right. apply bool_decide_eq_false in Ht.
      apply bool_decide_eq_false_2. intros [?|?]%elem_of_sub_go; [done|].
      by apply elem_of_nil in H.
    + (* a tag starts right after the bracket: then the bracket started one *)
      apply match_len_sound in Hd as [Hn Hm].
      apply html_matches_shape in Hm as (d' & body & Hshape & Hd' & Hbody).
      simpl in Hshape. injection Hshape as -> Hbody'.
      cbn [tag_body] in Ht. change (negb (LT =? GT)) with true in Ht. simpl in Ht.
      apply bool_decide_eq_false in Ht. exfalso. apply Ht.
      rewrite <- (take_drop n s), Hbody'. set_solver.
    + cbn [tag_body] in *. apply andb_false_iff in Ht as [Ht|Ht]; [by rewrite Ht|].
      apply andb_false_iff. right. apply bool_decide_eq_false in Ht.
      apply bool_decide_eq_false_2. intros [?|?]%elem_of_sub_go; [done|].
      by apply elem_of_nil in H.
Qed.

(** *** Runs of newlines *)

Lemma blank_lines_match (pre s : str) :
  match_len AiGuide.BLANK_LINES_RE pre s
  = if (3 <=? run_length (is_ch NL) s)%nat then Some (run_length (is_ch NL) s) else None.
Proof.
  unfold match_len, match_at, AiGuide.BLANK_LINES_RE. rewrite run_Rep.
  cbn [before after groups].
  destruct (3 <=? run_length (is_ch NL) s)%nat eqn:Hrun.
  - apply Nat.leb_le in Hrun.
    erewrite rep_greedy_max; [|done|reflexivity]. simpl.
    rewrite length_app, length_rev, length_take.
    pose proof (run_length_le (is_ch NL) s). f_equal. lia.
  - apply Nat.leb_gt in Hrun.
    destruct (rep _ _ _ _ _ _ _) as [st|] eqn:E; [|done].
    apply rep_sound in E as (m & rest & -> & (Hm & Hlen & _) & _).
    pose proof (run_length_prefix (is_ch NL) m rest Hm). lia.
Qed.

Lemma run_length_app_stop (p : N → bool) (m s : str) :
  Forall (λ c, p c = true) m → run_length p s = O →
  run_length p (m ++ s) = length m.
Proof.
  intros Hm Hs. induction Hm as [|c m Hc Hm IH]; simpl; [done|]. by rewrite Hc, IH.
Qed.

Lemma run_length_drop (p : N → bool) (s : str) :
  run_length p (drop (run_length p s) s) = O.
Proof.
  pose proof (run_length_stop p s) as H.
  destruct (drop (run_length p s) s) as [|c t]; [done|]. simpl. by rewrite H.
Qed.

(** Squeezing runs of three or more newlines leaves only short runs, and
    lengthens none. *)
Lemma sub_blank_lines_runs (s pre : str) :
  short_runs (sub_go AiGuide.BLANK_LINES_RE [NL; NL] pre s 0) = true
  ∧ (run_length (is_ch NL) (sub_go AiGuide.BLANK_LINES_RE [NL; NL] pre s 0)
     ≤ run_length (is_ch NL) s)%nat.
Proof.
  revert pre. induction s as [s IH] using (induction_ltof1 _ (@length N)).
  unfold ltof in IH. intros pre. destruct s as [|c s]; [done|].
  rewrite sub_go_step, blank_lines_match.
  destruct (3 <=? run_length (is_ch NL) (c :: s))%nat eqn:Hrun.
  - apply Nat.leb_le in Hrun.
    destruct (run_length (is_ch NL) (c :: s)) as [|n] eqn:Hn; [lia|].
    destruct (IH (drop (S n) (c :: s))) with
      (pre := rev (take (S n) (c :: s)) ++ pre) as [Hshort Hle].
    { rewrite length_drop. simpl. lia. }
    assert (Hstop : run_length (is_ch NL) (drop (S n) (c :: s)) = O).
    { rewrite <- Hn. apply run_length_drop. }
    set (out := sub_go _ _ _ _ _) in *.
    assert (Hout : run_length (is_ch NL) out = O) by lia.
    cbn [app short_runs run_length]. change (is_ch NL NL) with true. cbv iota.
    rewrite Hout, Hshort. simpl. split; [done|lia].
  - apply Nat.leb_gt in Hrun.
    destruct (IH s) with (pre := c :: pre) as [Hshort Hle]; [simpl; lia|].
    set (out := sub_go _ _ _ _ _) in *.
    cbn [short_runs]. rewrite Hshort, andb_true_r.
    cbn [run_length] in *. destruct (is_ch NL c); [|by split; [|lia]].
    split; [apply Nat.ltb_lt|]; lia.
Qed.

Lemma blank_lines_search (pre s : str) :
  search_go AiGuide.BLANK_LINES_RE pre s = None ↔ short_runs s = true.
Proof.
  assert (Hat : ∀ pre s, match_at AiGuide.BLANK_LINES_RE pre s = None
                         ↔ (run_length (is_ch NL) s <? 3)%nat = true).
  { intros pre' s'. pose proof (blank_lines_match pre' s') as H.
    unfold match_len in H. rewrite Nat.ltb_lt.
    destruct (match_at _ pre' s'), (Nat.leb_spec 3 (run_length (is_ch NL) s'));
      simpl in H; split; try done; lia. }
  revert pre. induction s as [|c s IH]; intros pre.
  - cbn [search_go short_runs]. by rewrite (proj2 (Hat pre []) eq_refl).
  - cbn [search_go short_runs]. rewrite andb_true_iff, <- (IH (c :: pre)), <- (Hat pre).
    destruct (match_at AiGuide.BLANK_LINES_RE pre (c :: s)); split; try done.
    + by intros [? ?].
    + by intros [_ ?].
Qed.

Lemma short_runs_suffix (a s : str) : short_runs (a ++ s) = true → short_runs s = true.
Proof.
  induction a as [|c a IH]; [done|]. cbn [app short_runs].
  intros [_ ?]%andb_true_iff. by apply IH.
Qed.

Lemma run_length_app_le (p : N → bool) (s z : str) :
  (run_length p s ≤ run_length p (s ++ z))%nat.
Proof. induction s as [|c s IH]; simpl; [lia|]. destruct (p c); lia. Qed.

Lemma short_runs_prefix (s z : str) : short_runs (s ++ z) = true → short_runs s = true.
Proof.
  induction s as [|c s IH]; [done|]. cbn [app short_runs].
  intros [Hrun ?]%andb_true_iff. rewrite IH by done. rewrite andb_true_r.
  apply Nat.ltb_lt. apply Nat.ltb_lt in Hrun.
  pose proof (run_length_app_le (is_ch NL) (c :: s) z). simpl in *. lia.
Qed.

Lemma short_runs_strip (p : N → bool) (s : str) :
  short_runs s = true → short_runs (Py.strip_by p s) = true.
Proof.
  destruct (strip_by_infix p s) as (a & z & Hs & _). rewrite Hs at 1.
  intros H%short_runs_suffix. by apply short_runs_prefix in H.
Qed.


(** *** Occurrences *)

Section Find.
Context {A : Type} `{EqDecision A}.
Implicit Types (sub s : list A).

Lemma find_Some_split sub s i :
  Py.find sub s = Some i → ∃ a z, s = a ++ sub ++ z ∧ length a = i.
Proof.
  revert i. induction s as [|c s IH]; intros i; cbn [Py.find].
  - destruct (Py.startswith [] sub) eqn:Hs; [|done]. intros [= <-].
    exists [], []. apply startswith_take in Hs. destruct sub; [done|]. done.
  - destruct (Py.startswith (c :: s) sub) eqn:Hs.
    + intros [= <-]. exists [], (drop (length sub) (c :: s)). split; [|done].
      rewrite <- (startswith_take _ _ Hs) at 1. simpl. by rewrite take_drop.
    + destruct (Py.find sub s) as [j|]; [|done]. simpl. intros [= <-].
      destruct (IH j eq_refl) as (a & z & -> & <-). by exists (c :: a), z.
Qed.

Lemma contains_split sub s :
  Py.contains sub s = true → ∃ a z, s = a ++ sub ++ z.
Proof.
  unfold Py.contains. destruct (Py.find sub s) as [i|] eqn:Hf; [|done].
  intros _. apply find_Some_split in Hf as (a & z & ? & _). eauto.
Qed.
End Find.

(** *** Tags and case *)

Lemma has_tag_app_r (a s : str) : has_tag s = true → has_tag (a ++ s) = true.
Proof.
  intros Hs. induction a as [|c a IH]; [done|]. cbn [app has_tag].
  by rewrite IH, orb_true_r.
Qed.

Lemma has_tag_app_plain (a s : str) : LT ∉ a → has_tag (a ++ s) = has_tag s.
Proof.
  intros Ha. induction a as [|c a IH]; [done|]. cbn [app has_tag tag_here].
  rewrite IH by set_solver.
  assert (c ≠ LT) as ->%N.eqb_neq by set_solver. done.
Qed.

Lemma in_range_true (lo hi c : N) : Py.in_range lo hi c = true ↔ lo ≤ c ≤ hi.
Proof. unfold Py.in_range. rewrite andb_true_iff, !N.leb_le. done. Qed.

Lemma in_range_false (lo hi c : N) : Py.in_range lo hi c = false ↔ ¬ (lo ≤ c ≤ hi).
Proof. rewrite <- in_range_true. by destruct (Py.in_range lo hi c). Qed.

(** Turns the tests on code points among the hypotheses into arithmetic. *)
Ltac code_point_tests :=
  unfold Py.even_in in *;
  repeat (progress
    (rewrite ?orb_true_iff, ?orb_false_iff, ?andb_true_iff, ?andb_false_iff,
       ?in_range_true, ?in_range_false, ?N.eqb_eq, ?N.eqb_neq in * )).

(** Lower-casing yields an angle bracket only from that bracket. *)
Lemma lower_cp_bracket (c x : N) :
  x ∈ Py.lower_cp c → x = LT ∨ x = GT → c = x.
Proof.
  unfold Py.lower_cp, LT, GT.
  repeat case_match; intros Hx Hb; set_unfold; code_point_tests; lia.
Qed.

Lemma lower_cp_nonempty (c : N) : Py.lower_cp c ≠ [].
Proof. unfold Py.lower_cp. repeat case_match; done. Qed.

Lemma lower_cons (c : N) (s : str) : Py.lower (c :: s) = Py.lower_cp c ++ Py.lower s.
Proof. done. Qed.

Lemma elem_of_lower_bracket (s : str) (x : N) :
  x = LT ∨ x = GT → x ∈ Py.lower s → x ∈ s.
Proof.
  intros Hx. induction s as [|c s IH]; [done|]. rewrite lower_cons.
  intros [Hc|Hs]%elem_of_app.
  - rewrite (lower_cp_bracket c x Hc Hx). set_solver.
  - set_solver.
Qed.

Lemma tag_body_lower (s : str) :
  tag_body (Py.lower s) = true → tag_body s = true.
Proof.
  destruct s as [|d s]; [done|]. rewrite lower_cons.
  pose proof (lower_cp_nonempty d) as Hne.
  destruct (Py.lower_cp d) as [|x xs] eqn:Hd; [done|]. cbn [app tag_body].
  intros [Hx%negb_true_iff%N.eqb_neq Hgt%bool_decide_eq_true]%andb_true_iff.
  assert (d ≠ GT) as Hdgt.
  { intros ->. by vm_compute in Hd; injection Hd as <- _. }
  rewrite (proj2 (N.eqb_neq d GT) Hdgt). simpl. apply bool_decide_eq_true_2.
  apply elem_of_app in Hgt as [Hgt|Hgt].
  - exfalso. apply Hdgt. apply (lower_cp_bracket d GT); [|by right].
    rewrite Hd. set_solver.
  - apply elem_of_lower_bracket in Hgt; [done|by right].
Qed.

(** Lower-casing creates no tag. *)
Lemma has_tag_lower (s : str) : has_tag (Py.lower s) = true → has_tag s = true.
Proof.
  induction s as [|c s IH]; [done|]. rewrite lower_cons.
  destruct (N.eqb_spec c LT) as [->|Hc].
  - change (Py.lower_cp LT) with [LT]. cbn [app has_tag tag_here].
    rewrite N.eqb_refl. cbn [andb].
    intros [Hb|Hs]%orb_true_iff.
    + by rewrite (tag_body_lower s Hb).
    + by rewrite (IH Hs), orb_true_r.
  - rewrite has_tag_app_plain.
    + intros Hs. cbn [has_tag]. by rewrite (IH Hs), orb_true_r.
    + intros Hin. apply Hc. apply (lower_cp_bracket c LT Hin). by left.
Qed.

(** A literal that opens with a bracket, continues with another character
    and closes with a bracket is a tag wherever it occurs, in any case. *)
Lemma contains_tag_lower (d : N) (w s : str) :
  d ≠ GT → Py.contains (LT :: d :: w ++ [GT]) (Py.lower s) = true →
  has_tag s = true.
Proof.
  intros Hd (a & z & Hs)%contains_split. apply has_tag_lower. rewrite Hs.
  apply has_tag_app_r. cbn [app has_tag tag_here tag_body].
  rewrite N.eqb_refl, (proj2 (N.eqb_neq d GT) Hd). cbn [andb negb].
  rewrite bool_decide_eq_true_2; [done|]. set_solver.
Qed.

(** *** The out-marker pattern *)

Lemma is_ch_ci_exact (c x : N) :
  c < 0x41 → is_ch_ci c x = true → x = c.
Proof.
  unfold is_ch_ci. intros Hc.
  repeat case_match; intros; code_point_tests; lia.
Qed.

Lemma is_ch_ci_letter (c x : N) :
  is_ch_ci c x = true → 0x61 ≤ c ≤ 0x7A → x ≠ GT.
Proof.
  unfold is_ch_ci, GT. intros H Hc ->. revert H.
  repeat case_match; intros; code_point_tests; lia.
Qed.

Lemma out_tag_shape (m : str) :
  matches AiGuide.OUT_TAG_RE m →
  ∃ d body, m = LT :: d :: body ∧ d ≠ GT ∧ GT ∈ body.
Proof.
  change AiGuide.OUT_TAG_RE
    with (Cat (Cat (Chr (is_ch_ci LT))
                 (Cat (Chr (is_ch_ci 0x6F))
                    (Cat (Chr (is_ch_ci 0x75))
                       (Cat (Chr (is_ch_ci 0x74)) (Cat (Chr (is_ch_ci GT)) Eps)))))
            (Cat (Grp (star_lazy any)) (Cat (lit_ci "</out>") Eps))).
  cbn [matches].
  intros (m1 & m2 & -> & (? & ? & -> & (c1 & -> & Hc1) & ? & ? & -> & (c2 & -> & Hc2)
                         & ? & ? & -> & (c3 & -> & Hc3) & ? & ? & -> & (c4 & -> & Hc4)
                         & ? & ? & -> & (c5 & -> & Hc5) & ->) & _).
  apply is_ch_ci_exact in Hc1; [|done]. apply is_ch_ci_exact in Hc5; [|done].
  apply is_ch_ci_letter in Hc2; [|done]. subst c1 c5.
  exists c2, ([c3; c4; GT] ++ m2). split; [done|]. split; [done|]. set_solver.
Qed.

Lemma tag_here_shape (d : N) (body rest : str) :
  d ≠ GT → GT ∈ body → tag_here ((LT :: d :: body) ++ rest) = true.
Proof.
  intros Hd Hbody. cbn [app tag_here tag_body].
  rewrite N.eqb_refl, (proj2 (N.eqb_neq d GT) Hd). cbn [andb negb].
  apply bool_decide_eq_true_2. set_solver.
Qed.

(** A pattern whose matches are tags finds nothing in a text without tags. *)
Lemma search_go_no_tag (r : regex) (pre s : str) :
  (∀ m, matches r m → ∃ d body, m = LT :: d :: body ∧ d ≠ GT ∧ GT ∈ body) →
  has_tag s = false → search_go r pre s = None.
Proof.
  intros Hshape. revert pre.
  assert (Hat : ∀ pre s, tag_here s = false → match_at r pre s = None).
  { clear s. intros pre s Ht. destruct (match_at r pre s) as [st|] eqn:E; [|done].
    apply match_at_sound in E as (m & Hm & _ & ->).
    apply Hshape in Hm as (d & body & -> & Hd & Hbody).
    by rewrite tag_here_shape in Ht. }
  induction s as [|c s IH]; intros pre Hs; cbn [search_go].
  - by rewrite Hat.
  - cbn [has_tag] in Hs. apply orb_false_iff in Hs as [Hh Hs].
    rewrite Hat by done. by apply IH.
Qed.

(** ** The sanitizer *)

Section Sanitizer.
Import AiGuide.

Lemma isspace_plain (c : N) : Py.isspace c = true → plain c.
Proof. intros H. split; intros ->; vm_compute in H; discriminate. Qed.

Lemma heading_classes : classes_in plain HEADING_RE.
Proof.
  unfold HEADING_RE, seq, star. cbn [classes_in foldr].
  repeat split; try (intros ->; vm_compute in H; discriminate).
Qed.

Lemma sub_heading_edits (s : str) : edits plain s (sub HEADING_RE [] s).
Proof.
  apply sub_go_edits. intros pre s' n [_ Hm]%match_len_sound.
  apply edits_delete_all. by apply (matches_classes plain HEADING_RE _ heading_classes).
Qed.

Lemma replicate_newlines (m : str) :
  Forall (λ c, is_ch NL c = true) m → m = replicate (length m) NL.
Proof.
  induction 1 as [|c m Hc%N.eqb_eq Hm IH]; [done|]. simpl. by rewrite <- IH, Hc.
Qed.

Lemma sub_blank_lines_edits (s : str) :
  edits plain s (sub BLANK_LINES_RE [NL; NL] s).
Proof.
  apply sub_go_edits. intros pre s' n [_ Hm]%match_len_sound.
  destruct Hm as (Hm & Hlen & _). rewrite (replicate_newlines _ Hm).
  destruct (length (take n s')) as [|[|k]]; [lia..|]. simpl.
  do 2 apply edits_keep. apply edits_delete_all, Forall_replicate. done.
Qed.

Lemma markdown_edits (s : str) : edits plain s (_strip_markdown_symbols s).
Proof.
  unfold _strip_markdown_symbols.
  eapply edits_trans; [|apply sub_heading_edits].
  eapply edits_trans; [|apply replace_edits; [done|]].
  eapply edits_trans; [|apply replace_edits; [done|]].
  eapply edits_trans; [|apply replace_edits; [done|]].
  - apply replace_edits; [done|]. by apply edits_subst; [..|constructor].
  - by do 2 (apply edits_drop; [done|]); constructor.
  - by apply edits_drop; [|constructor].
  - by apply edits_drop; [|constructor].
Qed.

Lemma clean_noise_no_tag (s : str) : has_tag (_clean_noise s) = false.
Proof.
  unfold _clean_noise. destruct s as [|c s]; [done|].
  eapply edits_has_tag; [apply edits_strip_by, isspace_plain|].
  apply sub_html_no_tag.
Qed.

Lemma sanitize_no_tag (raw : str) : has_tag (_final_sanitize raw) = false.
Proof.
  unfold _final_sanitize.
  eapply edits_has_tag; [apply edits_strip_by, isspace_plain|].
  eapply edits_has_tag; [apply sub_blank_lines_edits|].
  eapply edits_has_tag; [apply markdown_edits|].
  apply clean_noise_no_tag.
Qed.

Lemma markdown_symbols_gone (s : str) (x : N) :
  x ∈ [cp "|"; cp "*"; cp "`"] → x ∉ _strip_markdown_symbols s.
Proof.
  unfold _strip_markdown_symbols. intros Hx Hin.
  apply elem_of_sub_go in Hin as [Hin|Hin]; [|by apply elem_of_nil in Hin].
  assert (Hbar : x ∉ [cp " "]) by (intros ->%list_elem_of_singleton; set_solver).
  destruct (decide (x = cp "`")) as [->|Hne].
  { by apply (replace_single_gone (cp "`") []) in Hin; [|apply not_elem_of_nil]. }
  apply elem_of_replace_go in Hin as [Hin|Hin]; [|by apply elem_of_nil in Hin].
  destruct (decide (x = cp "*")) as [->|Hne'].
  { by apply (replace_single_gone (cp "*") []) in Hin; [|apply not_elem_of_nil]. }
  apply elem_of_replace_go in Hin as [Hin|Hin]; [|by apply elem_of_nil in Hin].
  apply elem_of_replace_go in Hin as [Hin|Hin]; [|by apply elem_of_nil in Hin].
  assert (x = cp "|") as -> by set_solver.
  by apply (replace_single_gone (cp "|") [cp " "]) in Hin.
Qed.

Lemma sanitize_symbols_gone (raw : str) (x : N) :
  x ∈ [cp "|"; cp "*"; cp "`"] → x ∉ _final_sanitize raw.
Proof.
  unfold _final_sanitize. intros Hx Hin%elem_of_strip_by.
  apply elem_of_sub_go in Hin as [Hin|Hin].
  - by apply markdown_symbols_gone in Hin.
  - set_solver.
Qed.

(** Text without the three symbols and without heading marker passes the
    markdown stage unchanged. *)
Lemma markdown_identity (s : str) :
  (∀ x, x ∈ [cp "|"; cp "*"; cp "`"] → x ∉ s) →
  search HEADING_RE s = None → _strip_markdown_symbols s = s.
Proof.
  intros Hsym Hheading. unfold _strip_markdown_symbols.
  assert (Hbar : cp "|" ∉ s) by (apply Hsym; repeat constructor).
  assert (Hstar : cp "*" ∉ s) by (apply Hsym; repeat constructor).
  assert (Htick : cp "`" ∉ s) by (apply Hsym; repeat constructor).
  assert (H1 : Py.replace (u "|") (u " ") s = s).
  { apply replace_absent; [by intros ? [= <-]|done]. }
  assert (H2 : Py.replace (u "**") [] s = s).
  { apply replace_absent; [by intros ? [= <-]|done]. }
  assert (H3 : Py.replace (u "*") [] s = s).
  { apply replace_absent; [by intros ? [= <-]|done]. }
  assert (H4 : Py.replace (u "`") [] s = s).
  { apply replace_absent; [by intros ? [= <-]|done]. }
  rewrite H1, H2, H3, H4. by apply sub_no_match.
Qed.

Lemma sanitize_short_runs (raw : str) : short_runs (_final_sanitize raw) = true.
Proof. unfold _final_sanitize. apply short_runs_strip, sub_blank_lines_runs. Qed.

Lemma sanitize_stripped (raw : str) : Py.strip (_final_sanitize raw) = _final_sanitize raw.
Proof. unfold _final_sanitize. apply strip_by_idem. Qed.


(** C7: when the sanitized text holds no instruction tag, no note:/output:
    marker line and no heading marker any more, sanitizing it again gives
    the same text. *)
Theorem sanitize_idempotent (x : str) :
  let y := _final_sanitize x in
  search NOISE_RE y = None →
  search DANGEROUS_SECTIONS_RE y = None →
  search HEADING_RE y = None →
  _final_sanitize y = y.
Proof.
  intros y Hnoise Hdanger Hheading.
  pose proof (sanitize_no_tag x) as Htag.
  pose proof (sanitize_symbols_gone x) as Hsym.
  pose proof (sanitize_short_runs x) as Hruns.
  pose proof (sanitize_stripped x) as Hstrip. fold y in Htag, Hsym, Hruns, Hstrip.
  assert (Hout : _extract_out y = y).
  { unfold _extract_out. destruct y as [|c s] eqn:Hy; [done|]. rewrite <- Hy in *.
    unfold search. rewrite (search_go_no_tag _ _ _ out_tag_shape Htag).
    destruct (Py.find (u "</out>") (Py.lower y)) as [i|] eqn:Hfind; [|done].
    assert (Py.contains (u "</out>") (Py.lower y) = true) as Hc
      by (unfold Py.contains; by rewrite Hfind).
    apply (contains_tag_lower 0x2F (u "out")) in Hc; [congruence|done]. }
  assert (Hmark : _strip_after_markers y = y).
  { unfold _strip_after_markers. by rewrite sub_no_match. }
  assert (Hclean : _clean_noise y = y).
  { unfold _clean_noise. destruct y as [|c s] eqn:Hy; [done|]. rewrite <- Hy in *.
    rewrite (sub_no_match NOISE_RE) by done.
    rewrite (sub_no_match HTML_TAG_RE) by (by apply html_search). done. }
  assert (Hmd : _strip_markdown_symbols y = y).
  { apply markdown_identity; [|done]. intros c Hc. by apply Hsym. }
  unfold _final_sanitize. rewrite Hout, Hmark, Hclean, Hmd.
  rewrite sub_no_match by (by apply blank_lines_search). done.
Qed.

Lemma sanitize_idempotent_witness :
  _final_sanitize (_final_sanitize (u "<out>Hello | *world*</out> Note: x"))
  = _final_sanitize (u "<out>Hello | *world*</out> Note: x").
Proof. apply sanitize_idempotent; vm_compute; reflexivity. Defined.

(** Without the side condition a second pass can still change the text. *)
Remark sanitize_twice_differs :
  _final_sanitize (u "####### x") = u "# x" ∧ _final_sanitize (u "# x") = u "x".
Proof. split; vm_compute; reflexivity. Qed.


End Sanitizer.

End Patterns.

(** ** Persona temperature *)

Section PersonaTemperature.
Import AiGuide.



End PersonaTemperature.

(** ** Citation extraction *)

Section Citations.
Import AiGuide.

Lemma foldl_append_ref (cites : list cite) (refs : list reference) :
  foldl append_ref cites refs = cites ++ Spec.cites_of refs.
Proof.
  revert cites. induction refs as [|ref refs IH]; intros cites; simpl.
  - by rewrite app_nil_r.
  - rewrite IH. unfold append_ref, Spec.cites_of. simpl. unfold Spec.cite_of at 2.
    destruct (truthy (ref_uri ref)); simpl; [by rewrite <- app_assoc | done].
Qed.

Lemma foldl_part_citations (cites : list cite) (provs : list part_citation) :
  foldl (λ cites prov,
           foldl append_ref cites (default [] (part_retrievedReferences prov)))
        cites provs
  = cites ++ (provs ≫= λ prov,
                Spec.cites_of (default [] (part_retrievedReferences prov))).
Proof.
  revert cites. induction provs as [|prov provs IH]; intros cites; simpl.
  - by rewrite app_nil_r.
  - rewrite IH, foldl_append_ref. by rewrite <- app_assoc.
Qed.

Lemma foldl_citations (cites : list cite) (cs : list citation) :
  foldl (λ cites c,
           let cites :=
             foldl (λ cites prov,
                      foldl append_ref cites
                            (default [] (part_retrievedReferences prov)))
                   cites
                   (default [] (get part_citations (generatedResponsePart c))) in
           foldl append_ref cites (default [] (retrievedReferences c)))
        cites cs
  = cites ++ (cs ≫= Spec.record_cites).
Proof.
  revert cites. induction cs as [|c cs IH]; intros cites; simpl.
  - by rewrite app_nil_r.
  - rewrite IH, foldl_append_ref, foldl_part_citations.
    unfold Spec.record_cites. by rewrite <- !app_assoc.
Qed.

Lemma extract_citations_spec (rag : rag_response) :
  _extract_citations rag = Spec.extractCitations rag.
Proof.
  unfold _extract_citations, Spec.extractCitations, Spec.nested_cites.
  rewrite foldl_citations. simpl.
  destruct (default [] (citations rag) ≫= Spec.record_cites) as [|c0 found]; [|done].
  destruct (top_retrievedReferences rag) as [refs|]; simpl; [|done].
  by rewrite foldl_append_ref.
Qed.


End Citations.

Section CitationsWitness.
Import AiGuide.


End CitationsWitness.

(** ** Graceful degradation of translation *)

Section Translation.
Import AiGuide.




End Translation.

(** ** The upload envelope *)

Section Envelope.
Import Scanner.

(** C3: the code at the failing input.  A base64-declared multipart upload
    whose content type names no boundary is answered with status 500
    (Internal error: boundary not found), whatever the environment, where
    the claim asks for a 4xx response. *)
Theorem missing_boundary_is_internal_error (e : env) :
  lambda_handler e Examples.event_without_boundary
  = _resp 500 (Message (u "Internal error: boundary not found")).
Proof. reflexivity. Qed.

End Envelope.

(** ** Localized names *)

Section LocalizedName.
Import Scanner.

Lemma find_first_match {A} (p : A → bool) (pre : list A) (x : A) (post : list A) :
  (∀ y, y ∈ pre → p y = false) → p x = true →
  List.find p (pre ++ x :: post) = Some x.
Proof.
  intros Hpre Hx. induction pre as [|y pre IH]; simpl.
  - by rewrite Hx.
  - rewrite (Hpre y) by set_solver. apply IH. intros z Hz. apply Hpre. set_solver.
Qed.

Lemma find_no_match {A} (p : A → bool) (l : list A) :
  (∀ y, y ∈ l → p y = false) → List.find p l = None.
Proof.
  intros Hl. induction l as [|y l IH]; simpl; [done|].
  rewrite (Hl y) by set_solver. apply IH. intros z Hz. apply Hl. set_solver.
Qed.

(** C10: for the first catalog entry carrying the id, the name in the
    requested language is returned when the entry has one, else its Russian
    name, else the id; an id carried by no entry is returned unchanged.  The
    function is total. *)
Theorem localized_name_fallbacks (landmarks : list landmark) (landmark_id lang : str) :
  (∀ pre lm post,
     landmarks = pre ++ lm :: post →
     (∀ other, other ∈ pre → other !! u "id" ≠ Some landmark_id) →
     lm !! u "id" = Some landmark_id →
     (∀ n, lm !! (u "name_" ++ lang) = Some n →
           localized_name landmarks landmark_id lang = n)
     ∧ (lm !! (u "name_" ++ lang) = None →
        ∀ r, lm !! u "name_ru" = Some r →
             localized_name landmarks landmark_id lang = r)
     ∧ (lm !! (u "name_" ++ lang) = None → lm !! u "name_ru" = None →
        localized_name landmarks landmark_id lang = landmark_id))
  ∧ ((∀ lm, lm ∈ landmarks → lm !! u "id" ≠ Some landmark_id) →
     localized_name landmarks landmark_id lang = landmark_id).
Proof.
  split.
  - intros pre lm post -> Hpre Hid. unfold localized_name.
    rewrite (find_first_match _ pre lm post).
    + repeat split.
      * by intros n ->.
      * by intros -> r ->.
      * by intros -> ->.
    + intros y Hy. apply bool_decide_eq_false_2. by apply Hpre.
    + by apply bool_decide_eq_true_2.
  - intros Hno. unfold localized_name. rewrite find_no_match; [done|].
    intros y Hy. apply bool_decide_eq_false_2. by apply Hno.
Qed.

Lemma localized_name_fallbacks_witness :
  localized_name Examples.catalog (u "bayterek") (u "en") = u "Bayterek Tower"
  ∧ localized_name Examples.catalog (u "khan_shatyr") (u "en") = u8 "Хан Шатыр"
  ∧ localized_name Examples.catalog (u "expo") (u "en") = u "expo"
  ∧ localized_name Examples.catalog (u "unknown") (u "en") = u "unknown".
Proof.
  pose proof (localized_name_fallbacks Examples.catalog (u "bayterek") (u "en")) as [H1 _].
  pose proof (localized_name_fallbacks Examples.catalog (u "khan_shatyr") (u "en")) as [H2 _].
  pose proof (localized_name_fallbacks Examples.catalog (u "expo") (u "en")) as [H3 _].
  pose proof (localized_name_fallbacks Examples.catalog (u "unknown") (u "en")) as [_ H4].
  split; [|split; [|split]].
  - apply (proj1 (H1 [] Examples.bayterek [Examples.khan_shatyr; Examples.nameless]
                     eq_refl ltac:(intros ? ?%elem_of_nil; done) eq_refl)).
    reflexivity.
  - refine (proj1 (proj2 (H2 [Examples.bayterek] Examples.khan_shatyr [Examples.nameless]
                             eq_refl _ eq_refl)) eq_refl _ eq_refl).
    intros other ->%list_elem_of_singleton. vm_compute. discriminate.
  - refine (proj2 (proj2 (H3 [Examples.bayterek; Examples.khan_shatyr] Examples.nameless []
                             eq_refl _ eq_refl)) eq_refl eq_refl).
    intros other Hin.
    repeat (apply elem_of_cons in Hin as [->|Hin]; [vm_compute; discriminate|]).
    by apply elem_of_nil in Hin.
  - apply H4. intros lm Hin.
    repeat (apply elem_of_cons in Hin as [->|Hin]; [vm_compute; discriminate|]).
    by apply elem_of_nil in Hin.
Defined.

End LocalizedName.

(** ** Landmark resolution *)

Section Resolver.
Import Scanner.












End Resolver.

(** ** Confidence of a detection *)

Section Confidence.
Import Scanner FloatSign.















End Confidence.

(** ** The multipart decoder *)

Import Form.

Section Separators.
Context {A : Type} `{EqDecision A}.
Implicit Types (sep a s cur : list A).

Lemma no_start_app sep a a' s :
  no_start sep a (a' ++ s) → no_start sep a' s → no_start sep (a ++ a') s.
Proof.
  intros Ha Ha'. induction a as [|c a IH]; [done|].
  destruct Ha as [Hc Ha]. simpl. rewrite <- app_assoc. split; [done|]. by apply IH.
Qed.

Lemma clash_startswith x y s : clash x y = true → Py.startswith (x ++ s) y = false.
Proof.
  revert y. induction x as [|c x IH]; intros [|d y]; simpl; try done.
  case_bool_decide as Hcd.
  - intros Hx. subst. rewrite bool_decide_eq_true_2 by done. by apply IH.
  - intros _. rewrite bool_decide_eq_false_2; [done|]. congruence.
Qed.

Lemma no_start_safe sep a s : safe sep a = true → no_start sep a s.
Proof.
  induction a as [|c a IH]; [done|]. cbn [safe no_start].
  intros [Hc Ha]%andb_true_iff. split; [|by apply IH].
  by apply (clash_startswith (c :: a)).
Qed.



(** A prefix test that succeeds on [a ++ y :: s] either succeeds within
    [a] or runs over [y]. *)
Lemma startswith_over a y s sep :
  Py.startswith (a ++ y :: s) sep = true → Py.startswith a sep = true ∨ y ∈ sep.
Proof.
  revert sep. induction a as [|c a IH]; intros [|d sep]; simpl; try (by left).
  - intros [->%bool_decide_eq_true _]%andb_true_iff. right. by left.
  - intros [->%bool_decide_eq_true Hs]%andb_true_iff.
    rewrite bool_decide_eq_true_2 by done. simpl.
    destruct (IH _ Hs) as [?|?]; [by left|right; by right].
Qed.

Lemma no_start_within sep a y s :
  Py.contains sep a = false → y ∉ sep → no_start sep a (y :: s).
Proof.
  unfold Py.contains. intros Hf Hy. induction a as [|c a IH]; [done|].
  cbn [Py.find] in Hf. destruct (Py.startswith (c :: a) sep) eqn:Hs; [done|].
  cbn [no_start]. split.
  - destruct (Py.startswith (c :: a ++ y :: s) sep) eqn:Hs'; [|done].
    apply (startswith_over (c :: a)) in Hs' as [?|?]; [congruence|done].
  - apply IH. by destruct (Py.find sep a).
Qed.

Lemma split_go_skip sep a s cur :
  Py.split_go sep (a ++ s) cur (length a) = Py.split_go sep s cur O.
Proof. induction a as [|c a IH]; [done|]. simpl. apply IH. Qed.

Lemma split_go_no_start sep a s cur :
  no_start sep a s → Py.split_go sep (a ++ s) cur O = Py.split_go sep s (rev a ++ cur) O.
Proof.
  revert cur. induction a as [|c a IH]; intros cur; [done|].
  intros [Hc Ha]. cbn [app Py.split_go]. rewrite Hc, IH by done.
  simpl. by rewrite <- app_assoc.
Qed.

Lemma split_go_sep sep s cur :
  sep ≠ [] → Py.split_go sep (sep ++ s) cur O = rev cur :: Py.split_go sep s [] O.
Proof.
  destruct sep as [|x sep]; [done|]. intros _.
  cbn [app Py.split_go]. change (x :: sep ++ s) with ((x :: sep) ++ s).
  rewrite startswith_app. f_equal. apply split_go_skip.
Qed.

(** The piece before the first separator. *)
Lemma split_go_piece sep a s :
  sep ≠ [] → no_start sep a (sep ++ s) →
  Py.split_go sep (a ++ sep ++ s) [] O = a :: Py.split_go sep s [] O.
Proof.
  intros Hsep Ha. rewrite split_go_no_start, split_go_sep by done.
  by rewrite app_nil_r, rev_involutive.
Qed.

(** The piece after the last separator. *)
Lemma split_go_last sep a :
  no_start sep a [] → Py.split_go sep a [] O = [a].
Proof.
  intros Ha. rewrite <- (app_nil_r a) at 1. rewrite split_go_no_start by done.
  simpl. by rewrite app_nil_r, rev_involutive.
Qed.

Lemma find_here sep s : Py.startswith s sep = true → Py.find sep s = Some O.
Proof. intros Hs. destruct s; cbn [Py.find]; by rewrite Hs. Qed.

Lemma find_no_start sep a s :
  no_start sep a (sep ++ s) → Py.find sep (a ++ sep ++ s) = Some (length a).
Proof.
  induction a as [|c a IH].
  - intros _. apply find_here. exact (startswith_app s sep).
  - intros [Hc Ha]. cbn [app Py.find]. rewrite Hc, IH by done. done.
Qed.

End Separators.

Section Octets.
Import Re.

Lemma graphic_range (c : N) : graphic c = true ↔ 0x21 ≤ c ≤ 0x7E.
Proof. apply in_range_true. Qed.


Lemma encode_graphic (s : str) :
  forallb graphic s = true → Py.encode s = ascii_of_N <$> s.
Proof.
  induction s as [|c s IH]; [done|]. cbn [forallb].
  intros [Hc Hs]%andb_true_iff. apply graphic_range in Hc.
  change (Py.encode (c :: s)) with (Py.encode_cp c ++ Py.encode s).
  rewrite IH by done. unfold Py.encode_cp.
  assert ((c <? 0x80) = true) as -> by (apply N.ltb_lt; lia). done.
Qed.





(** No octet of a graphic text is white space, a carriage return or a
    line feed among them. *)
Lemma octet_of_graphic (s : str) (x : ascii) :
  forallb graphic s = true → x ∈ Py.encode s → graphic (N_of_ascii x) = true.
Proof.
  intros Hs. rewrite encode_graphic by done.
  intros (c & -> & Hc)%list_elem_of_fmap.
  rewrite forallb_forall in Hs. apply list_elem_of_In, Hs in Hc.
  pose proof Hc as Hr. apply graphic_range in Hr.
  rewrite N_ascii_embedding by lia. done.
Qed.

Lemma boundary_ok_graphic (boundary : str) :
  boundary_ok boundary = true → forallb graphic boundary = true.
Proof.
  unfold boundary_ok. intros [_ H]%andb_true_iff.
  rewrite forallb_forall in *. intros c Hc. apply H in Hc.
  by apply andb_true_iff in Hc as [[? _]%andb_true_iff _].
Qed.


End Octets.

Section Boundary.
Import Re Markup Scanner.

Lemma search_go_here (r : regex) (pre s : str) (st : mstate) :
  match_at r pre s = Some st → search_go r pre s = Some (pre, st).
Proof. intros H. destruct s; simpl; by rewrite H. Qed.

Lemma run_length_all (p : N → bool) (s : str) :
  forallb p s = true → run_length p s = length s.
Proof.
  induction s as [|c s IH]; [done|]. cbn [forallb run_length].
  intros [-> Hs]%andb_true_iff. by rewrite IH.
Qed.

Lemma boundary_chars (boundary : str) :
  boundary_ok boundary = true →
  forallb (isnt [QUOTE; cp ";"]) boundary = true.
Proof.
  unfold boundary_ok. intros [_ H]%andb_true_iff.
  rewrite forallb_forall in *. intros c Hc. apply H in Hc.
  apply andb_true_iff in Hc as [[_ Hq%negb_true_iff]%andb_true_iff Hs%negb_true_iff].
  apply N.eqb_neq in Hq, Hs. unfold isnt. apply negb_true_iff, bool_decide_eq_false.
  intros [->|[->|[]%elem_of_nil]%elem_of_cons]%elem_of_cons; done.
Qed.

(** The boundary parameter is found in the header and is the first group. *)
Lemma boundary_search (boundary : str) :
  boundary_ok boundary = true →
  group 1 <$> search BOUNDARY_RE (form_header boundary) = Some boundary.
Proof.
  intros Hok. unfold search, form_header.
  set (P := rev (u "multipart/form-data; ")).
  set (Q := rev (u "boundary=") ++ P).
  transitivity (group 1 <$> search_go BOUNDARY_RE P (u "boundary=" ++ boundary));
    [reflexivity|].
  assert (Hm : match_at BOUNDARY_RE P (u "boundary=" ++ boundary)
               = Some (MState (rev boundary ++ Q) [] [boundary])).
  { unfold match_at.
    transitivity (run (seq [opt (is_ch QUOTE); Grp (plus (isnt [QUOTE; cp ";"]));
                            opt (is_ch QUOTE)]) Some (MState Q boundary []));
      [reflexivity|].
    pose proof (boundary_chars _ Hok) as Hall.
    destruct boundary as [|c bs] eqn:Hb; [done|]. rewrite <- Hb in *.
    assert (Hq : is_ch QUOTE c = false).
    { cbn [forallb] in Hall. rewrite Hb in Hall. cbn [forallb] in Hall.
      apply andb_true_iff in Hall as [Hc _]. unfold isnt in Hc.
      apply negb_true_iff, bool_decide_eq_false in Hc.
      unfold is_ch. apply N.eqb_neq. intros <-. apply Hc. by left. }
    change (seq _) with (Cat (opt (is_ch QUOTE))
      (Cat (Grp (plus (isnt [QUOTE; cp ";"]))) (Cat (opt (is_ch QUOTE)) Eps))).
    rewrite run_Cat. unfold opt at 1. rewrite run_Rep. cbn [before after groups].
    rewrite Hb at 1. rewrite rep_cons, Hq. cbn [andb]. rewrite <- Hb.
    rewrite run_Cat. 
    change (run (Grp ?r) ?k ?st) with
      (run r (λ st',
             let n := (length (before st') - length (before st))%nat in
             k (MState (before st') (after st')
                       (groups st' ++ [rev (take n (before st'))]))) st).
    unfold plus. rewrite run_Rep. cbn [before after groups].
    apply rep_greedy_max.
    { rewrite run_length_all by done. rewrite Hb. simpl. lia. }
    rewrite run_length_all by done. rewrite firstn_all, drop_all.
    cbn [before after groups]. cbv zeta.
    rewrite run_Cat. unfold opt. rewrite run_Rep, rep_nil, run_Eps.
    cbn [before after groups app]. do 3 f_equal.
    rewrite length_app, length_rev.
    replace (length boundary + length Q - length Q)%nat with (length (rev boundary))
      by (rewrite length_rev; lia).
    rewrite take_app_length. by rewrite rev_involutive. }
  by rewrite (search_go_here _ _ _ _ Hm).
Qed.

End Boundary.

Section Chunks.
Import Re Scanner Examples.

Lemma lstrip_by_app_all {A} (p : A → bool) (a s : list A) :
  forallb p a = true → Py.lstrip_by p (a ++ s) = Py.lstrip_by p s.
Proof.
  induction a as [|c a IH]; [done|]. cbn [forallb app Py.lstrip_by].
  intros [-> Ha]%andb_true_iff. by apply IH.
Qed.

Lemma rstrip_by_stop {A} (p : A → bool) (s : list A) (x : A) (w : list A) :
  p x = false → forallb p w = true → Py.rstrip_by p (s ++ x :: w) = s ++ [x].
Proof.
  intros Hx Hw. unfold Py.rstrip_by.
  rewrite rev_app_distr. cbn [rev]. rewrite <- app_assoc.
  rewrite lstrip_by_app_all.
  - cbn [app Py.lstrip_by]. rewrite Hx. cbn [rev]. by rewrite rev_involutive.
  - rewrite forallb_forall in *. intros c Hc. apply Hw. by apply in_rev.
Qed.

Lemma ends_in_data_last (file : bytes) :
  ends_in_data file = true →
  ∃ f x, file = f ++ [x] ∧ Py.isspace_byte x = false.
Proof.
  unfold ends_in_data. destruct (last file) as [x|] eqn:Hl; [|done].
  intros Hx%negb_true_iff. apply last_Some in Hl as [f ->]. eauto.
Qed.

Lemma parse_chunk_skip (ed : bytes) (out : gmap str field) (ch : bytes) :
  Py.bstrip ch = [] ∨ Py.bstrip ch = b "--" → parse_chunk ed out ch = out.
Proof.
  unfold parse_chunk. intros [->| ->]; [done|].
  by destruct (bool_decide _).
Qed.

Lemma parse_chunk_lang (ed : bytes) :
  head ed = Some (ascii_of_N 45) →
  parse_chunk ed ∅ lang_segment = <[u "lang" := Text (u "en")]> ∅.
Proof.
  intros Hed.
  transitivity (parse_chunk [] ∅ lang_segment); [|vm_compute; reflexivity].
  unfold parse_chunk.
  set (ch := Py.bstrip lang_segment).
  assert (bool_decide (ch = ed) = false) as ->.
  { apply bool_decide_eq_false. intros <-. vm_compute in Hed. discriminate. }
  assert (bool_decide (ch = []) = false) as -> by (by vm_compute).
  done.
Qed.

(** White space in the sense of [str] is white space in the sense of
    [bytes] on the octets below 0x80, and conversely. *)
Lemma graphic_octet (x : ascii) :
  graphic (N_of_ascii x) = true → Py.isspace_byte x = false.
Proof.
  rewrite graphic_range. intros Hc. unfold Py.isspace_byte. cbv zeta.
  rewrite orb_false_iff, in_range_false, N.eqb_neq. lia.
Qed.



End Chunks.

Section Decoder.
Import Re Scanner Examples.





End Decoder.

(** * Further properties of the text path *)

Section TextPath.
Import AiGuide.

Lemma cites_of_located (refs : list reference) :
  Forall (λ c, cite_uri c ≠ [] ∧ (length (snippet c) ≤ 600)%nat) (Spec.cites_of refs).
Proof.
  unfold Spec.cites_of. induction refs as [|ref refs IH]; [constructor|].
  cbn [omap list_omap]. unfold Spec.cite_of at 1.
  destruct (truthy (ref_uri ref)) eqn:Hu; [|done].
  constructor; [|done]. cbn [cite_uri snippet]. split.
  - by destruct (ref_uri ref).
  - rewrite length_take. lia.
Qed.

Lemma record_cites_located (c : citation) :
  Forall (λ c, cite_uri c ≠ [] ∧ (length (snippet c) ≤ 600)%nat) (Spec.record_cites c).
Proof.
  unfold Spec.record_cites. apply Forall_app. split; [|apply cites_of_located].
  induction (default [] (get part_citations (generatedResponsePart c)))
    as [|prov provs IH]; [constructor|].
  cbn. apply Forall_app. split; [apply cites_of_located|done].
Qed.

(** X1: every citation returned has a URI that is not empty and a snippet
    of at most 600 characters. *)
Theorem citations_are_located (rag : rag_response) :
  Forall (λ c, cite_uri c ≠ [] ∧ (length (snippet c) ≤ 600)%nat)
         (_extract_citations rag).
Proof.
  rewrite extract_citations_spec. unfold Spec.extractCitations.
  apply Forall_take.
  destruct (Spec.nested_cites rag) as [|c0 found] eqn:Hn.
  - apply cites_of_located.
  - rewrite <- Hn. unfold Spec.nested_cites.
    induction (default [] (citations rag)) as [|c cs IH]; [constructor|].
    cbn. apply Forall_app. split; [apply record_cites_located|done].
Qed.

(** X2: the persona tag the handler works with is always one of the three
    known tags, and normalising a normalised tag changes nothing. *)
Theorem persona_or_default_normal (p : option str) :
  _persona_or_default p ∈ [u "friendly"; u "formal"; u "humorous"]
  ∧ _persona_or_default (Some (_persona_or_default p)) = _persona_or_default p.
Proof.
  assert (H : _persona_or_default p ∈ [u "friendly"; u "formal"; u "humorous"]).
  { unfold _persona_or_default. cbv zeta.
    destruct (bool_decide _) eqn:E; [by apply bool_decide_eq_true in E|].
    repeat constructor. }
  split; [done|].
  repeat (apply elem_of_cons in H as [->|H]; [vm_compute; reflexivity|]).
  by apply elem_of_nil in H.
Qed.

Lemma ltb_leb (x y : Float.float) : Float.ltb x y = true → Float.leb x y = true.
Proof.
  unfold Float.ltb, Float.leb, SFltb, SFleb. by destruct (SFcompare x y) as [[]|].
Qed.

(** X3: whatever the base temperature is (infinite and not-a-number
    included), the temperature is at least 0.1 for the formal persona and
    at most 1.0 for every other one. *)
Theorem persona_temperature_bounds (base : Float.float) (persona : str) :
  let t := _persona_temperature base persona in
  if bool_decide (Py.strip (Py.lower persona) = u "formal")
  then Float.leb (Float.decimal 1 1) t = true
  else Float.leb t (Float.decimal 1 0) = true.
Proof.
  assert (Hmax : ∀ x, Float.leb (Float.decimal 1 1) (Float.max (Float.decimal 1 1) x) = true).
  { intros x. unfold Float.max.
    destruct (Float.ltb (Float.decimal 1 1) x) eqn:E; [by apply ltb_leb|].
    vm_compute. reflexivity. }
  assert (Hmin : ∀ x, Float.leb (Float.min (Float.decimal 1 0) x) (Float.decimal 1 0) = true).
  { intros x. unfold Float.min.
    destruct (Float.ltb x (Float.decimal 1 0)) eqn:E; [by apply ltb_leb|].
    vm_compute. reflexivity. }
  unfold _persona_temperature. cbv zeta.
  destruct (bool_decide (_ = u "formal")); [apply Hmax|].
  destruct (bool_decide _); apply Hmin.
Qed.




End TextPath.

(** * Further properties of the upload handler *)

Section UploadHandler.
Import Scanner Upload.

(** Runs the handler up to the decoded fields. *)
Ltac open_envelope Hdec :=
  let Hb := fresh "Hb" in let ct := fresh "ct" in let bd := fresh "bd" in
  let Hct := fresh "Hct" in let Hm := fresh "Hm" in let Hbd := fresh "Hbd" in
  let Hp := fresh "Hp" in
  destruct Hdec as (Hb & ct & bd & Hct & Hm & Hbd & Hp);
  unfold content_type_header in Hct; cbv zeta in Hct;
  unfold lambda_handler; cbv zeta;
  rewrite Hb, Hct; cbn [negb];
  destruct ct; [discriminate Hm|];
  rewrite Hm, Hbd, Hp; cbn [negb].

(** A file of a type the handler does not know is refused. *)
Lemma unsupported_type_refused (e : env) (ev : event) (fields : gmap str field)
    (lang persona : str) (f : file_part) :
  decodes_to ev fields →
  field_lower fields (u "lang") (u "ru") = Ok lang →
  field_lower fields (u "persona") (u "formal") = Ok persona →
  fields !! u "file" = Some (File f) →
  (MAX_BYTES <? N.of_nat (length (file_content f))) = false →
  ALLOWED_MIME (file_content_type f) = None →
  lambda_handler e ev = _resp 415 (Message (u "Unsupported media type")).
Proof.
  intros Hdec Hlang Hpersona Hfile Hsize Hmime. open_envelope Hdec.
  by rewrite Hlang, Hpersona, Hfile, Hsize, Hmime.
Qed.

(** X6: an oversized file is refused with 413 before its type is looked
    at, and a file of a type other than image/jpeg and image/png with 415;
    neither answer depends on the environment. *)
Theorem upload_limits (e : env) (ev : event) (fields : gmap str field)
    (lang persona : str) (f : file_part) :
  decodes_to ev fields →
  field_lower fields (u "lang") (u "ru") = Ok lang →
  field_lower fields (u "persona") (u "formal") = Ok persona →
  fields !! u "file" = Some (File f) →
  ((MAX_BYTES <? N.of_nat (length (file_content f))) = true →
   lambda_handler e ev = _resp 413 (Message (u "File too large")))
  ∧ ((MAX_BYTES <? N.of_nat (length (file_content f))) = false →
     ALLOWED_MIME (file_content_type f) = None →
     lambda_handler e ev = _resp 415 (Message (u "Unsupported media type"))).
Proof.
  intros Hdec Hlang Hpersona Hfile. split.
  - intros Hsize. open_envelope Hdec. by rewrite Hlang, Hpersona, Hfile, Hsize.
  - intros Hsize Hmime. by eapply unsupported_type_refused.
Qed.

Lemma upload_limits_witness :
  lambda_handler (Examples.vision_env [] (λ l, l))
    {| headers := Some [(u "Content-Type", u "multipart/form-data; boundary=XBOUNDARYX")];
       isBase64Encoded := true;
       body := Ok (Examples.two_part_body (b "XBOUNDARYX") (b "image/gif") Examples.png) |}
  = _resp 415 (Message (u "Unsupported media type")).
Proof.
  refine (proj2 (upload_limits _ _
    (<[u "file" := File {| filename := u "a.png"; file_content_type := b "image/gif";
                           file_content := Examples.png |}]>
       (<[u "lang" := Text (u "en")]> ∅))
    (u "en") (u "formal") _ _ _ _ _) _ _).
  - split; [reflexivity|].
    exists (u "multipart/form-data; boundary=XBOUNDARYX"),
      (Examples.two_part_body (b "XBOUNDARYX") (b "image/gif") Examples.png).
    repeat split; vm_compute; reflexivity.
  - vm_compute; reflexivity.
  - vm_compute; reflexivity.
  - vm_compute; reflexivity.
  - vm_compute; reflexivity.
  - vm_compute; reflexivity.
Defined.









(** X10: the upload handler answers with one of the statuses 200, 400, 413,
    415 and 500, whatever the event and the environment; a scan result
    comes with status 200 and every other status with a bare message. *)
Theorem scan_status_codes (e : env) (ev : event) :
  match payload_of (lambda_handler e ev) with
  | Scan _ _ _ _ => statusCode (lambda_handler e ev) = 200%Z
  | Message _ => statusCode (lambda_handler e ev) ∈ [400; 413; 415; 500]%Z
  end.
Proof.
  unfold lambda_handler. cbv zeta.
  repeat case_match; simplify_eq;
    cbn [payload_of statusCode _resp internal_error] in *; try done;
    repeat (first [apply list_elem_of_here | apply list_elem_of_further]).
Qed.

End UploadHandler.

(** * Further properties of the multipart decoder *)

Section Decoded.
Import Re Scanner Parts.











Lemma rep_none_left {A} (p : N → bool) (k : str → str → option A) (pre s : str) :
  rep true p 0 (Some O) k pre s = k pre s.
Proof.
  destruct s as [|c s]; [by rewrite rep_nil|].
  rewrite rep_cons. cbn [may_take]. by rewrite andb_false_r.
Qed.

(** The boundary parameter between double quotes, whatever follows the
    closing quote. *)
Lemma quoted_boundary_search (boundary rest : str) :
  boundary_ok boundary = true →
  group 1 <$> search BOUNDARY_RE
                (u "multipart/form-data; boundary=" ++ [QUOTE] ++ boundary
                 ++ [QUOTE] ++ rest)
  = Some boundary.
Proof.
  intros Hok. unfold search.
  set (P := rev (u "multipart/form-data; ")).
  set (Q := rev (u "boundary=") ++ P).
  set (tail := QUOTE :: rest).
  transitivity (group 1 <$> search_go BOUNDARY_RE P
                  (u "boundary=" ++ QUOTE :: boundary ++ tail));
    [reflexivity|].
  assert (Hm : match_at BOUNDARY_RE P (u "boundary=" ++ QUOTE :: boundary ++ tail)
               = Some (MState (QUOTE :: rev boundary ++ QUOTE :: Q) rest [boundary])).
  { unfold match_at.
    transitivity (run (seq [opt (is_ch QUOTE); Grp (plus (isnt [QUOTE; cp ";"]));
                            opt (is_ch QUOTE)]) Some
                      (MState Q (QUOTE :: boundary ++ tail) []));
      [reflexivity|].
    pose proof (boundary_chars _ Hok) as Hall.
    assert (Hlen : (1 ≤ length boundary)%nat).
    { unfold boundary_ok in Hok.
      apply andb_true_iff in Hok as [Hne%negb_true_iff%bool_decide_eq_false _].
      destruct boundary; [done|simpl; lia]. }
    assert (Hrun : Markup.run_length (isnt [QUOTE; cp ";"]) (boundary ++ tail)
                   = length boundary).
    { apply run_length_app_stop; [|done].
      apply Forall_forall. rewrite forallb_forall in Hall.
      intros c Hc. apply Hall. by apply list_elem_of_In. }
    change (seq _) with (Cat (opt (is_ch QUOTE))
      (Cat (Grp (plus (isnt [QUOTE; cp ";"]))) (Cat (opt (is_ch QUOTE)) Eps))).
    rewrite run_Cat. unfold opt at 1. rewrite run_Rep. cbn [before after groups].
    rewrite rep_cons.
    change (is_ch QUOTE QUOTE && may_take (Some 1%nat)) with true. cbv iota.
    change (pred <$> Some 1%nat) with (Some O). cbn [Nat.pred].
    rewrite rep_none_left.
    assert (Hk : run (Cat (Grp (plus (isnt [QUOTE; cp ";"])))
                        (Cat (opt (is_ch QUOTE)) Eps)) Some
                     (MState (QUOTE :: Q) (boundary ++ tail) [])
                 = Some (MState (QUOTE :: rev boundary ++ QUOTE :: Q) rest [boundary])).
    { rewrite run_Cat.
      change (run (Grp ?r) ?k ?st) with
        (run r (λ st',
               let n := (length (before st') - length (before st))%nat in
               k (MState (before st') (after st')
                         (groups st' ++ [rev (take n (before st'))]))) st).
      unfold plus. rewrite run_Rep. cbn [before after groups].
      apply rep_greedy_max; [lia|]. rewrite Hrun.
      rewrite take_app_length, drop_app_length.
      cbn [before after groups]. cbv zeta.
      rewrite run_Cat. unfold opt. rewrite run_Rep. cbn [before after groups].
      unfold tail. rewrite rep_cons.
      change (is_ch QUOTE QUOTE && may_take (Some 1%nat)) with true. cbv iota.
      change (pred <$> Some 1%nat) with (Some O). cbn [Nat.pred].
      rewrite rep_none_left, run_Eps. cbn [before after groups app]. do 3 f_equal.
      rewrite length_app, length_rev. cbn [length].
      replace (length boundary + S (length Q) - S (length Q))%nat
        with (length (rev boundary)) by (rewrite length_rev; lia).
      rewrite take_app_length. by rewrite rev_involutive. }
    by rewrite Hk. }
  by rewrite (search_go_here _ _ _ _ Hm).
Qed.

(** X12: a boundary given between double quotes (and followed by anything)
    decodes every body as the same boundary given bare. *)
Theorem quoted_boundary_same (boundary rest : str) (body : bytes) :
  boundary_ok boundary = true →
  parse_multipart body
    (u "multipart/form-data; boundary=" ++ [QUOTE] ++ boundary ++ [QUOTE] ++ rest)
  = parse_multipart body (form_header boundary).
Proof.
  intros Hok. unfold parse_multipart.
  pose proof (quoted_boundary_search boundary rest Hok) as Hq.
  pose proof (boundary_search boundary Hok) as Hb.
  destruct (search BOUNDARY_RE (_ ++ [QUOTE] ++ _)) as [m|]; [|done].
  destruct (search BOUNDARY_RE (form_header boundary)) as [m'|]; [|done].
  injection Hq as ->. by injection Hb as ->.
Qed.

Lemma quoted_boundary_same_witness :
  parse_multipart
    (Examples.two_part_body (b "XBOUNDARYX") (b "image/png") Examples.png)
    (u "multipart/form-data; boundary=" ++ [QUOTE] ++ u "XBOUNDARYX" ++ [QUOTE]
     ++ u "; charset=utf-8")
  = parse_multipart
      (Examples.two_part_body (b "XBOUNDARYX") (b "image/png") Examples.png)
      (form_header (u "XBOUNDARYX")).
Proof.
  apply (quoted_boundary_same (u "XBOUNDARYX") (u "; charset=utf-8")). reflexivity.
Defined.

Section Pieces.
Context {A : Type} `{EqDecision A}.
Implicit Types (c s t sep cur sub a z : list A).

Lemma piece_of_refl s : piece_of s s.
Proof. exists [], []. by rewrite app_nil_r. Qed.

Lemma piece_of_trans c s t : piece_of c s → piece_of s t → piece_of c t.
Proof.
  intros (a & z & ->) (a' & z' & ->). exists (a' ++ a), (z ++ z').
  by rewrite <- !app_assoc.
Qed.

Lemma piece_of_app_l c s a : piece_of c s → piece_of c (a ++ s).
Proof. intros (a' & z & ->). exists (a ++ a'), z. by rewrite <- !app_assoc. Qed.

Lemma piece_of_app_r c s z : piece_of c s → piece_of c (s ++ z).
Proof. intros (a & z' & ->). exists a, (z' ++ z). by rewrite <- !app_assoc. Qed.




Lemma strip_by_piece (p : A → bool) s : piece_of (Py.strip_by p s) s.
Proof. destruct (strip_by_infix p s) as (a & z & Hs & _). by exists a, z. Qed.

End Pieces.



Section Untyped.
Import Examples.

Lemma parse_chunk_untyped (ed : bytes) (out : gmap str field) (file : bytes) :
  head ed = Some (ascii_of_N 45) →
  ends_in_data file = true →
  parse_chunk ed out (untyped_segment file)
  = <[u "file" := File {| filename := u "a.png";
                          file_content_type := b "application/octet-stream";
                          file_content := file |}]> out.
Proof.
  intros Hed Hfile.
  destruct (ends_in_data_last _ Hfile) as (f & x & Hf & Hx).
  set (S := disposition ++ Py.CRLF ++ Py.CRLF ++ file).
  assert (Hstrip : Py.bstrip (untyped_segment file) = S).
  { unfold Py.bstrip, Py.strip_by, untyped_segment.
    change (Py.lstrip_by Py.isspace_byte (Py.CRLF ++ disposition ++ ?z))
      with (disposition ++ z).
    unfold S. rewrite Hf, !app_assoc, <- (app_assoc _ [x] Py.CRLF).
    change ([x] ++ Py.CRLF) with (x :: Py.CRLF).
    by rewrite rstrip_by_stop. }
  assert (Hne : bool_decide (S = []) = false ∧ bool_decide (S = b "--") = false
                ∧ bool_decide (S = ed) = false).
  { repeat split; apply bool_decide_eq_false; intros H%(f_equal head);
      rewrite ?Hed in H; vm_compute in H; discriminate. }
  destruct Hne as (Hn1 & Hn2 & Hn3).
  assert (Hfind : Py.find (Py.CRLF ++ Py.CRLF) S = Some (length disposition)).
  { change S with (disposition ++ (Py.CRLF ++ Py.CRLF) ++ file).
    apply find_no_start, no_start_safe. vm_compute. reflexivity. }
  assert (Htake : take (length disposition) S = disposition).
  { change S with (disposition ++ (Py.CRLF ++ Py.CRLF) ++ file).
    by rewrite take_app_length. }
  assert (Hdrop : drop (length disposition + 4) S = file).
  { change S with (disposition ++ (Py.CRLF ++ Py.CRLF) ++ file).
    rewrite <- drop_drop, drop_app_length. done. }
  assert (Hdata : Py.rstrip_crlf file = file).
  { unfold Py.rstrip_crlf. rewrite Hf. apply rstrip_by_stop; [|done].
    apply orb_false_iff. split; apply bool_decide_eq_false; by intros ->. }
  clearbody S.
  unfold parse_chunk. cbv zeta. rewrite Hstrip, Hn1, Hn2, Hn3. cbn [orb].
  rewrite Hfind, Htake, Hdrop, Hdata.
  vm_compute (Py.split _ (Py.decode_ignore disposition)).
  vm_compute (foldl scan_header _ _). cbv beta iota.
  vm_compute (search NAME_RE _). vm_compute (search FILENAME_RE _).
  reflexivity.
Qed.

Lemma split_untyped_body (boundary : str) (file : bytes) :
  boundary_ok boundary = true →
  Py.contains (b "--" ++ Py.encode boundary) file = false →
  Py.split (b "--" ++ Py.encode boundary) (untyped_body (Py.encode boundary) file)
  = [[]; lang_segment; untyped_segment file; b "--" ++ Py.CRLF].
Proof.
  intros Hb Hfile. set (delimiter := b "--" ++ Py.encode boundary) in *.
  pose proof (boundary_ok_graphic _ Hb) as Hg.
  assert (Hcr : Py.CR ∉ delimiter).
  { intros [[=]|[[=]|Hin%(octet_of_graphic _ _ Hg)]%elem_of_cons]%elem_of_cons. done. }
  assert (Hne : delimiter ≠ []) by done.
  unfold Py.split, untyped_body. fold delimiter.
  rewrite split_go_sep by done. cbn [rev]. f_equal.
  rewrite split_go_piece; [|done|apply no_start_safe; vm_compute; reflexivity]. f_equal.
  rewrite split_go_piece; [|done|].
  - f_equal. apply split_go_last.
    destruct (Py.encode boundary) as [|x xs] eqn:He.
    { rewrite encode_graphic in He by done. unfold boundary_ok in Hb.
      apply andb_true_iff in Hb as [Hb%negb_true_iff%bool_decide_eq_false _].
      by destruct boundary. }
    assert (Hx : x ≠ Py.CR).
    { intros ->. apply Hcr. unfold delimiter. set_solver. }
    unfold delimiter.
    repeat split; [|by apply (clash_startswith _ _ [])..].
    cbn. rewrite (bool_decide_eq_false_2 _ Hx). cbn [andb]. by rewrite !andb_false_r.
  - change (untyped_segment file)
      with ((Py.CRLF ++ disposition ++ Py.CRLF ++ Py.CRLF) ++ file ++ Py.CRLF).
    apply no_start_app; [apply no_start_safe; vm_compute; reflexivity|].
    apply no_start_app; [by apply (no_start_within _ _ Py.CR)|].
    apply no_start_safe; vm_compute; reflexivity.
Qed.

(** X14: a file part that declares no content type is given the type
    application/octet-stream, which the handler refuses: the upload is
    answered 415 whatever the file holds. *)
Theorem untyped_file_is_octet_stream (e : env) (boundary : str) (file : bytes) :
  boundary_ok boundary = true →
  Py.contains (b "--" ++ Py.encode boundary) file = false →
  ends_in_data file = true →
  parse_multipart (untyped_body (Py.encode boundary) file) (form_header boundary)
  = Ok (<[u "file" := File {| filename := u "a.png";
                             file_content_type := b "application/octet-stream";
                             file_content := file |}]>
        (<[u "lang" := Text (u "en")]> ∅))
  ∧ ((MAX_BYTES <? N.of_nat (length file)) = false →
     lambda_handler e
       {| headers := Some [(u "Content-Type", form_header boundary)];
          isBase64Encoded := true;
          body := Ok (untyped_body (Py.encode boundary) file) |}
     = _resp 415 (Message (u "Unsupported media type"))).
Proof.
  intros Hb Hfile Hend.
  assert (Hparse : parse_multipart (untyped_body (Py.encode boundary) file)
                                   (form_header boundary)
    = Ok (<[u "file" := File {| filename := u "a.png";
                               file_content_type := b "application/octet-stream";
                               file_content := file |}]>
          (<[u "lang" := Text (u "en")]> ∅))).
  { unfold parse_multipart.
    pose proof (boundary_search _ Hb) as Hm.
    destruct (search BOUNDARY_RE (form_header boundary)) as [m|]; [|done].
    injection Hm as ->. cbv zeta.
    rewrite split_untyped_body by done. cbn [foldl]. f_equal.
    rewrite (parse_chunk_skip _ _ []) by (by left).
    rewrite parse_chunk_lang by done.
    rewrite parse_chunk_untyped by done.
    apply parse_chunk_skip. by right. }
  split; [done|]. intros Hsize.
  eapply unsupported_type_refused.
  - split; [reflexivity|]. eexists _, _. split; [|split; [|split; [reflexivity|exact Hparse]]].
    + unfold Upload.content_type_header. cbn [headers].
      change (foldl _ ∅ _)
        with (<[u "content-type" := form_header boundary]> (∅ : gmap str str)).
      rewrite lookup_insert_eq. reflexivity.
    + reflexivity.
  - vm_compute. reflexivity.
  - vm_compute. reflexivity.
  - apply lookup_insert_eq.
  - exact Hsize.
  - reflexivity.
Qed.

Lemma untyped_file_is_octet_stream_witness :
  parse_multipart (untyped_body (b "XBOUNDARYX") Examples.png)
                  (form_header (u "XBOUNDARYX"))
  = Ok (<[u "file" := File {| filename := u "a.png";
                             file_content_type := b "application/octet-stream";
                             file_content := Examples.png |}]>
        (<[u "lang" := Text (u "en")]> ∅))
  ∧ lambda_handler (Examples.vision_env [] (λ l, l))
      {| headers := Some [(u "Content-Type", form_header (u "XBOUNDARYX"))];
         isBase64Encoded := true;
         body := Ok (untyped_body (b "XBOUNDARYX") Examples.png) |}
    = _resp 415 (Message (u "Unsupported media type")).
Proof.
  destruct (untyped_file_is_octet_stream (Examples.vision_env [] (λ l, l))
              (u "XBOUNDARYX") Examples.png) as [Hparse Hresp];
    [reflexivity..|].
  split; [exact Hparse|]. apply Hresp. reflexivity.
Defined.

End Untyped.

End Decoded.

(** * Further properties of the sanitizer *)

Section Captures.
Import Re Markup Parts.

(** The groups closed by a successful run are pieces of the text
    consumed. *)
Lemma run_groups {A} (r : regex) (k : mstate → option A) (st : mstate) (x : A) :
  run r k st = Some x →
  ∃ m st', before st' = rev m ++ before st ∧ after st = m ++ after st'
           ∧ k st' = Some x
           ∧ ∀ g, g ∈ groups st' → g ∈ groups st ∨ piece_of g m.
Proof.
  revert k st. induction r as [p|g lo hi p|r1 IH1 r2 IH2|r1 IH1 r2 IH2| |r IH|ml|ml];
    simpl; intros k st Hrun.
  - destruct (after st) as [|c rest] eqn:Hafter; [done|].
    destruct (p c) eqn:Hc; [|done].
    exists [c], (MState (c :: before st) rest (groups st)). simpl. eauto 10.
  - apply rep_sound in Hrun as (m & rest' & Hrest & Hm & Hk).
    exists m, (MState (rev m ++ before st) rest' (groups st)). simpl. eauto 10.
  - apply IH1 in Hrun as (m1 & st1 & Hb1 & Ha1 & Hrun & Hg1).
    apply IH2 in Hrun as (m2 & st2 & Hb2 & Ha2 & Hk & Hg2).
    exists (m1 ++ m2), st2.
    rewrite Hb2, Hb1, Ha1, Ha2, rev_app_distr, <- !app_assoc.
    split; [done|]. split; [done|]. split; [done|].
    intros g [[Hg|Hg]%Hg1|Hg]%Hg2; [by left|right..].
    + by apply piece_of_app_r.
    + by apply piece_of_app_l.
  - destruct (run r1 k st) eqn:E.
    + injection Hrun as ->. apply IH1 in E as (m & st' & ? & ? & ? & ?). eauto 10.
    + apply IH2 in Hrun as (m & st' & ? & ? & ? & ?). eauto 10.
  - exists [], st. eauto 10.
  - apply IH in Hrun as (m & st' & Hb & Ha & Hk & Hg).
    eexists m, (MState (before st') (after st') _). simpl.
    split; [done|]. split; [done|]. split; [exact Hk|].
    intros g [Hin|Hin%list_elem_of_singleton]%elem_of_app.
    + by apply Hg.
    + subst g. right. rewrite Hb, length_app, length_rev.
      replace (length m + length (before st) - length (before st))%nat
        with (length (rev m)) by (rewrite length_rev; lia).
      rewrite take_app_length, rev_involutive. apply piece_of_refl.
  - destruct (at_bol ml (before st)); [|done]. exists [], st. eauto 10.
  - destruct (at_eol ml (after st)); [|done]. exists [], st. eauto 10.
Qed.

Lemma match_at_groups (r : regex) (pre p s : str) (st : mstate) (i : nat) :
  match_at r pre s = Some st → piece_of (group i (p, st)) s.
Proof.
  intros E. apply run_groups in E as (t & st' & _ & Ha & [= ->] & Hg). simpl in Ha.
  unfold group. cbn [snd].
  destruct (groups st !! pred i) as [g|] eqn:Hi; [|by exists [], s].
  apply list_elem_of_lookup_2 in Hi. apply Hg in Hi as [[]%elem_of_nil|Hp].
  cbn [default]. eapply piece_of_trans; [exact Hp|]. by exists [], (after st).
Qed.

(** The groups of what [re.search] finds lie in the text. *)
Lemma search_go_groups (r : regex) (pre s : str) (m : str * mstate) (i : nat) :
  search_go r pre s = Some m → piece_of (group i m) s.
Proof.
  revert pre. induction s as [|c s IH]; intros pre; cbn [search_go].
  - destruct (match_at r pre []) as [st|] eqn:E; [|done]. intros [= <-].
    by eapply match_at_groups.
  - destruct (match_at r pre (c :: s)) as [st|] eqn:E.
    + intros [= <-]. by eapply match_at_groups.
    + intros Hs%IH. by apply (piece_of_app_l _ _ [c]).
Qed.

End Captures.

Section PlainText.
Import Re Markup Parts Plain AiGuide.

Lemma needs_sound (Q : N → Prop) (r : regex) (m : str) :
  needs Q r → matches r m → Exists Q m.
Proof.
  revert m. induction r as [p|g lo hi p|r1 IH1 r2 IH2|r1 IH1 r2 IH2| |r IH|ml|ml];
    cbn [needs matches]; intros m HQ Hm; try done.
  - destruct Hm as (c & -> & Hc). left. by apply HQ.
  - destruct HQ as [Hlo HQ], Hm as (Hm & Hlen & _).
    destruct Hm as [|c m Hc Hm]; [simpl in Hlen; lia|]. left. by apply HQ.
  - destruct Hm as (m1 & m2 & -> & Hm1 & Hm2). apply Exists_app.
    destruct HQ as [HQ|HQ]; [left; by apply IH1|right; by apply IH2].
  - destruct HQ as [HQ1 HQ2], Hm as [Hm|Hm]; [by apply IH1|by apply IH2].
  - by apply IH.
Qed.

(** A pattern finds nothing in a text without the characters it needs. *)
Lemma search_go_needs (Q : N → Prop) (r : regex) (pre s : str) :
  needs Q r → Forall (λ c, ¬ Q c) s → search_go r pre s = None.
Proof.
  intros Hr. revert pre.
  assert (Hat : ∀ pre s, Forall (λ c, ¬ Q c) s → match_at r pre s = None).
  { clear s. intros pre s Hs. destruct (match_at r pre s) as [st|] eqn:E; [|done].
    apply match_at_sound in E as (m & Hm & _ & ->).
    apply (needs_sound Q) in Hm; [|done].
    apply Forall_app in Hs as [Hs _].
    apply Exists_exists in Hm as (c & Hc & HQ).
    rewrite Forall_forall in Hs. by destruct (Hs c Hc). }
  induction s as [|c s IH]; intros pre Hs; cbn [search_go].
  - by rewrite Hat.
  - rewrite Hat by done. apply IH. by inversion Hs.
Qed.

Lemma is_ch_ci_other (c x : N) :
  Py.in_range 0x41 0x5A c || Py.in_range 0x61 0x7A c = false →
  is_ch_ci c x = true → x = c.
Proof.
  unfold is_ch_ci. cbv zeta. intros Hc.
  apply orb_false_iff in Hc as [Hu%in_range_false Hl%in_range_false].
  destruct (Py.in_range 65 90 c) eqn:E1; [apply in_range_true in E1; lia|].
  destruct (Py.in_range 65 90 x) eqn:E2;
    [apply in_range_true in E2|apply in_range_false in E2];
    rewrite !orb_true_iff, !andb_true_iff, !N.eqb_eq; lia.
Qed.

(** Walks a pattern down to a character it cannot do without. *)
Ltac needs_leaf :=
  let c := fresh "c" in let Hc := fresh "Hc" in
  intros c Hc;
  first [ apply N.eqb_eq in Hc | apply is_ch_ci_other in Hc; [|reflexivity] ];
  subst c; reflexivity.
Ltac needs_walk :=
  lazymatch goal with
  | |- _ ∧ _ => split; needs_walk
  | |- _ ∨ _ => first [left; needs_walk | right; needs_walk]
  | |- (_ ≤ _)%nat => lia
  | |- ∀ c, _ => needs_leaf
  end.

Lemma noise_needs : needs (λ c, mark c = true) NOISE_RE.
Proof. unfold NOISE_RE. cbn. needs_walk. Qed.

Lemma html_tag_needs : needs (λ c, mark c = true) HTML_TAG_RE.
Proof. unfold HTML_TAG_RE. cbn. needs_walk. Qed.

Lemma out_tag_needs : needs (λ c, mark c = true) OUT_TAG_RE.
Proof. unfold OUT_TAG_RE. cbn. needs_walk. Qed.

Lemma dangerous_needs : needs (λ c, mark c = true) DANGEROUS_SECTIONS_RE.
Proof. unfold DANGEROUS_SECTIONS_RE. cbn. needs_walk. Qed.

Lemma heading_needs : needs (λ c, mark c = true) HEADING_RE.
Proof. unfold HEADING_RE. cbn. needs_walk. Qed.

Lemma plain_text_parts (s : str) :
  plain_text s = true →
  Forall (λ c, ¬ mark c = true) s
  ∧ (∀ x, x ∈ [cp "|"; cp "*"; cp "`"] → x ∉ s)
  ∧ short_runs s = true.
Proof.
  unfold plain_text. intros [Hall Hruns]%andb_true_iff.
  rewrite forallb_forall in Hall. split; [|split; [|done]].
  - apply Forall_forall. intros c Hc%list_elem_of_In%Hall.
    apply andb_true_iff in Hc as [Hc%negb_true_iff _]. congruence.
  - intros x Hx Hin%list_elem_of_In%Hall.
    apply andb_true_iff in Hin as [_ Hin%negb_true_iff].
    unfold symbol in Hin. by apply bool_decide_eq_false in Hin.
Qed.

Lemma plain_text_strip (s : str) :
  plain_text s = true → plain_text (Py.strip s) = true.
Proof.
  unfold plain_text. intros [Hall Hruns]%andb_true_iff.
  apply andb_true_iff. split; [|by apply short_runs_strip].
  rewrite forallb_forall in *. intros c Hc%list_elem_of_In%elem_of_strip_by.
  by apply Hall, list_elem_of_In.
Qed.

(** X15: a text that holds none of the characters < [ : # | * and
    backtick and no run of three newlines passes the sanitizer unchanged,
    apart from the white space removed at both ends. *)
Theorem plain_text_passes (raw : str) :
  plain_text raw = true → _final_sanitize raw = Py.strip raw.
Proof.
  intros Hraw.
  assert (Hout : _extract_out raw = Py.strip raw).
  { unfold _extract_out. destruct raw as [|c s] eqn:Hr; [done|]. rewrite <- Hr in *.
    destruct (plain_text_parts _ Hraw) as (Hmark & _ & _).
    unfold search. rewrite (search_go_needs _ _ _ _ out_tag_needs Hmark).
    destruct (Py.find (u "</out>") (Py.lower raw)) as [i|] eqn:Hfind; [|done].
    apply find_Some_split in Hfind as (a & z & Hl & _).
    assert (Hin : LT ∈ raw).
    { apply elem_of_lower_bracket; [by left|]. rewrite Hl. set_solver. }
    rewrite Forall_forall in Hmark. by destruct (Hmark _ Hin). }
  apply plain_text_strip in Hraw. set (t := Py.strip raw) in *.
  destruct (plain_text_parts _ Hraw) as (Hmark & Hsym & Hruns).
  assert (Hstrip : Py.strip t = t) by apply strip_by_idem.
  assert (Hmarkers : _strip_after_markers t = t).
  { unfold _strip_after_markers.
    by rewrite sub_no_match by (by apply search_go_needs with (Q := λ c, mark c = true);
                                  [apply dangerous_needs|]). }
  assert (Hclean : _clean_noise t = t).
  { unfold _clean_noise. destruct t as [|c s] eqn:Ht; [done|]. rewrite <- Ht in *.
    rewrite (sub_no_match NOISE_RE)
      by (by apply search_go_needs with (Q := λ c, mark c = true); [apply noise_needs|]).
    by rewrite (sub_no_match HTML_TAG_RE)
      by (by apply search_go_needs with (Q := λ c, mark c = true);
            [apply html_tag_needs|]). }
  assert (Hmd : _strip_markdown_symbols t = t).
  { apply markdown_identity; [done|].
    by apply search_go_needs with (Q := λ c, mark c = true); [apply heading_needs|]. }
  unfold _final_sanitize. rewrite Hout, Hmarkers, Hclean, Hmd.
  by rewrite sub_no_match by (by apply blank_lines_search).
Qed.

Lemma plain_text_passes_witness :
  _final_sanitize (u "  Bayterek is 97 m tall; open daily. ")
  = u "Bayterek is 97 m tall; open daily.".
Proof. apply (plain_text_passes (u "  Bayterek is 97 m tall; open daily. ")). reflexivity. Defined.

End PlainText.

Section OnlyRemoves.
Import Re Markup Parts AiGuide.

Lemma piece_of_length {A} (c s : list A) : piece_of c s → (length c ≤ length s)%nat.
Proof. intros (a & z & ->). rewrite !length_app. lia. Qed.

Lemma piece_of_elem {A} (c s : list A) (x : A) : piece_of c s → x ∈ c → x ∈ s.
Proof. intros (a & z & ->) Hx. set_solver. Qed.

Lemma piece_of_take {A} (s : list A) (n : nat) : piece_of (take n s) s.
Proof. exists [], (drop n s). by rewrite app_nil_l, take_drop. Qed.

(** What [_extract_out] returns is a piece of the text. *)
Lemma extract_out_piece (t : str) : piece_of (_extract_out t) t.
Proof.
  unfold _extract_out. destruct t as [|c s] eqn:Ht; [apply piece_of_refl|].
  rewrite <- Ht.
  destruct (search OUT_TAG_RE t) as [m|] eqn:Hs.
  - eapply piece_of_trans; [apply strip_by_piece|]. by eapply search_go_groups.
  - destruct (Py.find _ _) as [i|].
    + eapply piece_of_trans; [apply strip_by_piece|apply piece_of_take].
    + apply strip_by_piece.
Qed.

Lemma edits_length (P : N → Prop) (s t : str) :
  edits P s t → (length t ≤ length s)%nat.
Proof. induction 1; simpl; lia. Qed.

(** Deleting what a pattern matches is an edit. *)
Lemma sub_delete_edits (r : regex) (s : str) : edits (λ _, True) s (sub r [] s).
Proof.
  apply sub_go_edits. intros pre s' n _.
  apply edits_delete_all, Forall_forall. done.
Qed.

Lemma sub_blank_lines_elem (s : str) (x : N) :
  x ∈ sub BLANK_LINES_RE [NL; NL] s → x ∈ s.
Proof.
  intros Hx. destruct (decide (NL ∈ s)) as [Hnl|Hnl].
  - apply elem_of_sub_go in Hx as [Hx|Hx]; [done|].
    by repeat (apply elem_of_cons in Hx as [->|Hx]; [done|]); apply elem_of_nil in Hx.
  - rewrite sub_no_match in Hx; [done|].
    apply (search_go_needs (λ c, c = NL)).
    + unfold BLANK_LINES_RE. cbn [Plain.needs]. split; [lia|].
      by intros c Hc%N.eqb_eq.
    + apply Forall_forall. by intros c Hc ->.
Qed.

(** X16: the sanitizer only removes: its output is never longer than the
    raw completion, and each of its characters occurs in the raw completion
    or is a space (which stands in for a vertical bar). *)
Theorem sanitize_only_removes (raw : str) :
  (length (_final_sanitize raw) ≤ length raw)%nat
  ∧ Forall (λ x, x ∈ raw ∨ x = cp " ") (_final_sanitize raw).
Proof.
  split.
  - unfold _final_sanitize.
    etrans; [apply piece_of_length, strip_by_piece|].
    etrans; [eapply edits_length, sub_blank_lines_edits|].
    etrans; [eapply edits_length, markdown_edits|].
    etrans; [|apply piece_of_length, extract_out_piece].
    set (t := _extract_out raw).
    assert (Hclean : ∀ v, (length (_clean_noise v) ≤ length v)%nat).
    { intros v. unfold _clean_noise. destruct v as [|c v'] eqn:Hv; [done|]. rewrite <- Hv.
      etrans; [apply piece_of_length, strip_by_piece|].
      etrans; [eapply edits_length, sub_delete_edits|].
      eapply edits_length, sub_delete_edits. }
    etrans; [apply Hclean|]. unfold _strip_after_markers.
    etrans; [apply piece_of_length, strip_by_piece|].
    eapply edits_length, sub_delete_edits.
  - apply Forall_forall. intros x Hx. unfold _final_sanitize in Hx.
    apply elem_of_strip_by, sub_blank_lines_elem in Hx.
    assert (Hmd : ∀ v, x ∈ _strip_markdown_symbols v → x ∈ v ∨ x = cp " ").
    { intros v Hv. unfold _strip_markdown_symbols in Hv.
      apply elem_of_sub_go in Hv as [Hv|[]%elem_of_nil].
      apply elem_of_replace_go in Hv as [Hv|[]%elem_of_nil].
      apply elem_of_replace_go in Hv as [Hv|[]%elem_of_nil].
      apply elem_of_replace_go in Hv as [Hv|[]%elem_of_nil].
      apply elem_of_replace_go in Hv as [Hv|Hv%list_elem_of_singleton]; [by left|by right]. }
    apply Hmd in Hx as [Hx|Hx]; [left|by right].
    assert (Hclean : ∀ v, x ∈ _clean_noise v → x ∈ v).
    { intros v Hv. unfold _clean_noise in Hv. destruct v as [|c v'] eqn:E; [done|].
      rewrite <- E in *. apply elem_of_strip_by in Hv.
      apply elem_of_sub_go in Hv as [Hv|[]%elem_of_nil].
      by apply elem_of_sub_go in Hv as [Hv|[]%elem_of_nil]. }
    apply Hclean in Hx. unfold _strip_after_markers in Hx.
    apply elem_of_strip_by in Hx. apply elem_of_sub_go in Hx as [Hx|[]%elem_of_nil].
    by apply (piece_of_elem _ _ _ (extract_out_piece raw)).
Qed.

End OnlyRemoves.

(** * Properties of the entry point of the text handler *)

Section Entry.
Import AiGuide AiGuideEntry.

Lemma empty_request_is_bad_request (env : collaborators) :
  AiGuide.lambda_handler env
    {| req_text := None; req_lang := None; req_persona := None |}
  = _resp 400 (Failure (u "bad_request") (u "Missing 'text' in request body")).
Proof. reflexivity. Qed.

Lemma handler_of_empty (env : collaborators) (loads : str → result json) (event : json) :
  _parse_event loads event = JDict ∅ →
  lambda_handler env loads event
  = _resp 400 (Failure (u "bad_request") (u "Missing 'text' in request body")).
Proof.
  intros H. unfold lambda_handler. rewrite H. unfold str_field.
  rewrite !lookup_empty. apply empty_request_is_bad_request.
Qed.

(** X17: an event that is not an object, an event whose body is neither a
    string nor an object, and an event whose body is a string that
    [json.loads] rejects are all answered 400 bad_request (the text is
    missing); none of them is an internal error. *)
Theorem unreadable_event_is_bad_request (env : collaborators)
    (loads : str → result json) :
  let bad := _resp 400 (Failure (u "bad_request") (u "Missing 'text' in request body")) in
  (∀ event, (∀ d, event ≠ JDict d) → lambda_handler env loads event = bad)
  ∧ (∀ d v, d !! u "body" = Some v → (∀ s, v ≠ JStr s) → (∀ b, v ≠ JDict b) →
            lambda_handler env loads (JDict d) = bad)
  ∧ (∀ d s e, d !! u "body" = Some (JStr s) → loads s = Raise e →
              lambda_handler env loads (JDict d) = bad).
Proof.
  intros bad. split; [|split].
  - intros event Hne. apply handler_of_empty. destruct event; try done. by destruct (Hne d).
  - intros d v Hbody Hs Hd. apply handler_of_empty. cbn [_parse_event]. rewrite Hbody.
    destruct v; try done; [by destruct (Hs s)|by destruct (Hd d0)].
  - intros d s e Hbody Hloads. apply handler_of_empty. cbn [_parse_event].
    by rewrite Hbody, Hloads.
Qed.

(** X18: a body that is valid JSON but not an object is answered 500
    inference_failed: the handler calls get on the decoded value. *)
Theorem non_object_body_is_internal_error (env : collaborators)
    (loads : str → result json) (d : gmap str json) (s : str) (v : json) :
  d !! u "body" = Some (JStr s) →
  loads s = Ok v →
  (∀ m, v ≠ JDict m) →
  lambda_handler env loads (JDict d)
  = _resp 500 (Failure (u "inference_failed") (no_attribute v "get")).
Proof.
  intros Hbody Hloads Hv. unfold lambda_handler. cbn [_parse_event].
  rewrite Hbody, Hloads. destruct v; try done. by destruct (Hv d0).
Qed.

Lemma non_object_body_is_internal_error_witness :
  lambda_handler (Examples.text_env (Ok None)) (λ _, Ok (JList []))
    (JDict {[ u "body" := JStr (u "[]") ]})
  = _resp 500 (Failure (u "inference_failed")
                 (u "'list' object has no attribute 'get'")).
Proof.
  apply (non_object_body_is_internal_error _ _ _ (u "[]") (JList [])); done.
Defined.

(** X19: the request may be the event itself, the body of the event as an
    object, or the body as a JSON string: the three are answered alike. *)
Theorem request_three_ways (env : collaborators) (loads : str → result json)
    (d : gmap str json) (s : str) :
  d !! u "body" = None →
  loads s = Ok (JDict d) →
  lambda_handler env loads (JDict {[ u "body" := JDict d ]})
  = lambda_handler env loads (JDict d)
  ∧ lambda_handler env loads (JDict {[ u "body" := JStr s ]})
    = lambda_handler env loads (JDict d).
Proof.
  intros Hbody Hloads. unfold lambda_handler. cbn [_parse_event].
  rewrite !lookup_singleton_eq, Hbody, Hloads. done.
Qed.

Lemma request_three_ways_witness :
  lambda_handler (Examples.text_env (Ok None))
    (λ _, Ok (JDict {[ u "text" := JStr (u "What is Bayterek?") ]}))
    (JDict {[ u "body" := JDict {[ u "text" := JStr (u "What is Bayterek?") ]} ]})
  = lambda_handler (Examples.text_env (Ok None))
      (λ _, Ok (JDict {[ u "text" := JStr (u "What is Bayterek?") ]}))
      (JDict {[ u "text" := JStr (u "What is Bayterek?") ]})
  ∧ lambda_handler (Examples.text_env (Ok None))
      (λ _, Ok (JDict {[ u "text" := JStr (u "What is Bayterek?") ]}))
      (JDict {[ u "body" := JStr (u "{}") ]})
    = lambda_handler (Examples.text_env (Ok None))
        (λ _, Ok (JDict {[ u "text" := JStr (u "What is Bayterek?") ]}))
        (JDict {[ u "text" := JStr (u "What is Bayterek?") ]}).
Proof.
  apply (request_three_ways (Examples.text_env (Ok None))
           (λ _, Ok (JDict {[ u "text" := JStr (u "What is Bayterek?") ]}))
           {[ u "text" := JStr (u "What is Bayterek?") ]} (u "{}")); done.
Defined.

(** X20: a text that is present but is not a string (a number other than
    zero, true, a list or an object that is not empty) is answered 500
    with the text of the attribute error, whatever the other fields are. *)
Theorem text_of_wrong_type (env : collaborators) (loads : str → result json)
    (d : gmap str json) (v : json) :
  d !! u "body" = None →
  d !! u "text" = Some v →
  truthy v = true →
  (∀ s, v ≠ JStr s) →
  lambda_handler env loads (JDict d)
  = _resp 500 (Failure (u "inference_failed") (no_attribute v "strip")).
Proof.
  intros Hbody Htext Hv Hs. unfold lambda_handler, str_field. cbn [_parse_event].
  rewrite Hbody, Htext, Hv. destruct v; try done. by destruct (Hs s).
Qed.

Lemma text_of_wrong_type_witness :
  lambda_handler (Examples.text_env (Ok None)) (λ _, Raise [])
    (JDict {[ u "text" := JInt 7 ]})
  = _resp 500 (Failure (u "inference_failed")
                 (u "'int' object has no attribute 'strip'")).
Proof.
  apply (text_of_wrong_type _ _ {[ u "text" := JInt 7 ]} (JInt 7)); done.
Defined.

End Entry.

(** * Further properties of the classification *)

Section Classification.
Import Scanner ScannerClient.

Lemma candidate_lines_key_error (landmarks : list landmark) :
  Exists (λ lm : landmark, lm !! u "id" = None) landmarks →
  candidate_lines landmarks = Raise (u "'id'").
Proof.
  induction 1 as [lm rest Hlm|lm rest _ IH]; cbn [candidate_lines].
  - unfold candidate_line. by rewrite Hlm.
  - unfold candidate_line. destruct (lm !! u "id"); [|done]. by rewrite IH.
Qed.

(** X21: when an entry of the catalog has no id, the classification
    raises the key error before the model is consulted, whatever the image;
    the handler then reports that nothing was recognized. *)
Theorem catalog_entry_without_id (e : env) (img : bytes) (format : str)
    (landmarks : list landmark) :
  Exists (λ lm : landmark, lm !! u "id" = None) landmarks →
  classify_with_llama e img format landmarks = Raise (u "'id'").
Proof.
  intros Hex. unfold classify_with_llama.
  rewrite (candidate_lines_key_error _ Hex). by destruct Hex.
Qed.

Lemma catalog_entry_without_id_witness :
  classify_with_llama (Examples.vision_env Examples.reply_confidence_7 (λ l, l))
    Examples.png (u "png") [Examples.bayterek; {[ u "name_ru" := u "x" ]}]
  = Raise (u "'id'").
Proof.
  apply catalog_entry_without_id. right. left. reflexivity.
Defined.



(** X23: the region the vision client is created for never holds a
    space; it is us-east-1 when the variable is unset or empty, and once a
    client exists the variable is not looked at again. *)
Theorem client_region_normal {C : Type} (new_client : str → C)
    (bedrock_region : option str) (c : C) :
  cp " " ∉ client_region bedrock_region
  ∧ client_region None = u "us-east-1"
  ∧ client_region (Some []) = u "us-east-1"
  ∧ bedrock_client new_client bedrock_region (Some c) = (c, Some c)
  ∧ bedrock_client new_client bedrock_region None
    = (new_client (client_region bedrock_region),
       Some (new_client (client_region bedrock_region))).
Proof.
  split; [|by repeat split].
  unfold client_region. apply (replace_single_gone (cp " ") []). apply not_elem_of_nil.
Qed.

End Classification.

(** * The stages of the sanitizer *)

Section OutBlock.
Import Re Markup Parts Plain AiGuide.

Lemma is_ch_ci_lt (c : N) : c ≠ LT → is_ch_ci LT c = false.
Proof.
  intros Hc. destruct (is_ch_ci LT c) eqn:E; [|done].
  apply is_ch_ci_exact in E; done.
Qed.

(** A lazy repetition hands over at the first position where the rest of
    the pattern succeeds. *)
Lemma rep_lazy_skip {A} (p : N → bool) (k : str → str → option A) (pre x s : str) :
  Forall (λ c, p c = true) x →
  (∀ x1 c x2, x = x1 ++ c :: x2 → k (rev x1 ++ pre) (c :: x2 ++ s) = None) →
  rep false p 0 None k pre (x ++ s) = rep false p 0 None k (rev x ++ pre) s.
Proof.
  intros Hx. revert pre. induction Hx as [|c x Hc Hx IH]; intros pre Hk; [done|].
  cbn [app]. rewrite rep_cons. pose proof (Hk [] c x eq_refl) as Hk0. cbn [rev app] in Hk0.
  rewrite Hk0, Hc. cbn [andb may_take].
  change (pred <$> None) with (@None nat). cbn [Nat.pred].
  rewrite IH.
  - cbn [rev]. by rewrite <- app_assoc.
  - intros x1 c' x2 ->. specialize (Hk (c :: x1) c' x2 eq_refl).
    cbn [rev] in Hk. by rewrite <- app_assoc in Hk.
Qed.

Lemma out_tag_head (pre : str) (c : N) (s : str) :
  c ≠ LT → match_at OUT_TAG_RE pre (c :: s) = None.
Proof.
  intros Hc. unfold match_at.
  change OUT_TAG_RE
    with (Cat (Cat (Chr (is_ch_ci LT)) (lit_ci "out>"))
              (Cat (Grp (star_lazy any)) (Cat (lit_ci "</out>") Eps))).
  rewrite !run_Cat, run_Chr. by rewrite is_ch_ci_lt.
Qed.

Lemma search_go_out_tag_skip (pre a s : str) :
  LT ∉ a → search_go OUT_TAG_RE pre (a ++ s) = search_go OUT_TAG_RE (rev a ++ pre) s.
Proof.
  revert pre. induction a as [|c a IH]; intros pre Ha; [done|].
  cbn [app search_go]. rewrite out_tag_head by set_solver.
  rewrite IH by set_solver. cbn [rev]. by rewrite <- app_assoc.
Qed.

Lemma close_tag_head {A} (k : mstate → option A) (pre : str) (c : N) (s : str)
    (g : list str) :
  c ≠ LT → run (Cat (lit_ci "</out>") Eps) k (MState pre (c :: s) g) = None.
Proof.
  intros Hc.
  change (lit_ci "</out>") with (Cat (Chr (is_ch_ci LT)) (lit_ci "/out>")).
  rewrite !run_Cat, run_Chr. by rewrite is_ch_ci_lt.
Qed.

Lemma out_block_match (pre x z : str) :
  LT ∉ x →
  match_at OUT_TAG_RE pre (u "<out>" ++ x ++ u "</out>" ++ z)
  = Some (MState (rev (u "</out>") ++ rev x ++ rev (u "<out>") ++ pre) z [x]).
Proof.
  intros Hx. unfold match_at.
  set (Q := rev (u "<out>") ++ pre).
  transitivity (run (Cat (Grp (star_lazy any)) (Cat (lit_ci "</out>") Eps)) Some
                    (MState Q (x ++ u "</out>" ++ z) []));
    [reflexivity|].
  rewrite run_Cat.
  change (run (Grp ?r) ?k ?st) with
    (run r (λ st',
           let n := (length (before st') - length (before st))%nat in
           k (MState (before st') (after st')
                     (groups st' ++ [rev (take n (before st'))]))) st).
  unfold star_lazy. rewrite run_Rep. cbn [before after groups].
  rewrite rep_lazy_skip.
  - assert (Hg : rev (take (length (rev x ++ Q) - length Q) (rev x ++ Q)) = x).
    { rewrite length_app, length_rev.
      replace (length x + length Q - length Q)%nat with (length (rev x))
        by (rewrite length_rev; lia).
      by rewrite take_app_length, rev_involutive. }
    change (u "</out>" ++ z) with (LT :: (u "/out>" ++ z)). rewrite rep_cons.
    cbv beta iota zeta.
    assert (Hk : run (Cat (lit_ci "</out>") Eps) Some
                   (MState (rev x ++ Q) (LT :: u "/out>" ++ z)
                      ([] ++ [rev (take (length (rev x ++ Q) - length Q) (rev x ++ Q))]))
                 = Some (MState (rev (u "</out>") ++ rev x ++ Q) z
                           ([] ++ [rev (take (length (rev x ++ Q) - length Q)
                                         (rev x ++ Q))])))
      by reflexivity.
    rewrite Hk, Hg. reflexivity.
  - apply Forall_forall. done.
  - intros x1 c x2 ->. cbv zeta. cbn [before after groups].
    apply close_tag_head. set_solver.
Qed.

(** X24: when the text holds an out block, [_extract_out] returns what
    stands between the first opening tag and the closing tag that follows
    it, stripped; what precedes the block and what follows it is dropped. *)
Theorem extract_out_between (a x z : str) :
  LT ∉ a → LT ∉ x →
  _extract_out (a ++ u "<out>" ++ x ++ u "</out>" ++ z) = Py.strip x.
Proof.
  intros Ha Hx. unfold _extract_out.
  destruct (a ++ u "<out>" ++ x ++ u "</out>" ++ z) as [|c s] eqn:Ht.
  { by destruct a. }
  rewrite <- Ht. unfold search. rewrite search_go_out_tag_skip by done.
  rewrite (search_go_here _ _ _ _ (out_block_match _ x z Hx)).
  reflexivity.
Qed.

Lemma extract_out_between_witness :
  _extract_out (u "Sure! <out> Bayterek is a tower. </out> Note: internal <b>")
  = u "Bayterek is a tower.".
Proof.
  apply (extract_out_between (u "Sure! ") (u " Bayterek is a tower. ")
           (u " Note: internal <b>"));
    (apply (bool_decide_unpack _); vm_compute; exact I).
Defined.

End OutBlock.

Section Markers.
Import Re Markup Parts Plain AiGuide.

(** The end of the marker pattern, [.*$] under DOTALL, consumes the rest
    of the text. *)
Lemma tail_run (pre s : str) (g : list str) :
  run (Cat (star any) (Cat (Eol false) Eps)) Some (MState pre s g)
  = Some (MState (rev s ++ pre) [] g).
Proof.
  rewrite run_Cat. unfold star. rewrite run_Rep. cbn [before after groups].
  assert (Hall : run_length any s = length s).
  { apply run_length_all. by apply forallb_forall. }
  apply rep_greedy_max; [lia|]. rewrite Hall, firstn_all, drop_all.
  reflexivity.
Qed.

(** A match of the marker pattern reaches the end of the text. *)
Lemma dangerous_match_to_end (pre s : str) (n : nat) :
  match_len DANGEROUS_SECTIONS_RE pre s = Some n → n = length s.
Proof.
  unfold match_len. destruct (match_at _ pre s) as [st|] eqn:E; [|done].
  intros [= <-]. unfold match_at in E.
  unfold DANGEROUS_SECTIONS_RE, seq in E. cbv zeta in E. cbn [foldr] in E.
  rewrite run_Cat in E. apply run_sound in E as (m1 & st1 & _ & Hb1 & Ha1 & E).
  rewrite run_Cat in E. apply run_sound in E as (m2 & st2 & _ & Hb2 & Ha2 & E).
  rewrite run_Cat in E. apply run_sound in E as (m3 & st3 & _ & Hb3 & Ha3 & E).
  destruct st3 as [pre3 s3 g3]. rewrite tail_run in E. injection E as <-.
  cbn [before after] in *. rewrite Hb3, Hb2, Hb1, Ha1, Ha2, Ha3.
  rewrite !length_app, !length_rev. lia.
Qed.

(** Deleting the matches of a pattern whose matches reach the end of the
    text leaves a prefix of the text, which ends before the first position
    where the pattern matches. *)
Lemma sub_go_prefix (r : regex) (s pre : str) :
  (∀ pre s n, match_len r pre s = Some n → n = length s) →
  ∃ p, sub_go r [] pre s 0 = take p s.
Proof.
  intros Hend. revert pre. induction s as [|c s IH]; intros pre; [by exists O|].
  rewrite sub_go_step. destruct (match_len r pre (c :: s)) as [[|n]|] eqn:E.
  - destruct (IH (c :: pre)) as (p & ->). by exists (S p).
  - apply Hend in E. exists O. rewrite E, drop_all. reflexivity.
  - destruct (IH (c :: pre)) as (p & ->). by exists (S p).
Qed.


(** X25: [_strip_after_markers] removes nothing but the end of the text:
    what it returns is a prefix of the text, stripped. *)
Theorem strip_after_markers_is_prefix (text : str) :
  ∃ n, _strip_after_markers text = Py.strip (take n text).
Proof.
  unfold _strip_after_markers, sub.
  destruct (sub_go_prefix DANGEROUS_SECTIONS_RE text [] dangerous_match_to_end)
    as (p & ->).
  by exists p.
Qed.








End Markers.
